(** * monopod_sdk: the joint abstraction and limit-monitoring layer

    A shallow embedding of [src/src/encoder_joint_module.cpp], of the
    inline helpers of the [Monopod] class declaration
    ([src/demos/sine_position_control.cpp], second document) and of the
    demo controller's loop and dump (the same file, first document), with the
    properties of the specification and further properties of the code
    stated over it.

    C++ [double] is IEEE 754 binary64: it is embedded as Rocq's primitive
    [float], so that NaN, the infinities and signed zeros behave as on the
    machine. [int] and [long int] values are only stored, compared and
    returned, never computed with, so they are embedded as [Z]. *)

From Stdlib Require Import ZArith Bool List Floats.
From stdpp Require Import base option list gmap fin_maps.

Local Open Scope Z_scope.

(** ** Doubles *)

Module Double.

Abbreviation double := PrimFloat.float.

(** [std::numeric_limits<double>::quiet_NaN()] *)
Definition quiet_NaN : double := PrimFloat.nan.

(** [std::numeric_limits<double>::max()] and [lowest()] *)
Definition numeric_max : double := 0x1.fffffffffffffp+1023%float.
Definition numeric_lowest : double := PrimFloat.opp numeric_max.

(** [std::isnan] *)
Definition isnan (x : double) : bool := PrimFloat.is_nan x.

End Double.
Import Double.

(** ** Enumerations of [common_header.hpp] *)

(** Modelled from the spec: the closed enumeration [Measurements] is declared
    in [monopod_sdk/common_header.hpp], which is not among the sources; its
    four members are the ones section 3 lists and the ones
    [encoder_joint_module.cpp] names. *)
Inductive Measurements : Set :=
  | position
  | velocity
  | acceleration
  | encoder_index.

(** Modelled from the spec: the joint identifiers, as listed by [joint_names]
    in the [Monopod] class. *)
Inductive JointNamesIndex : Set :=
  | hip_joint
  | knee_joint
  | boom_connector_joint
  | planarizer_yaw_joint
  | planarizer_pitch_joint.

#[global] Instance Measurements_eq_dec : EqDecision Measurements.
Proof. solve_decision. Defined.

Definition Measurements_to_nat (k : Measurements) : nat :=
  match k with
  | position => 0
  | velocity => 1
  | acceleration => 2
  | encoder_index => 3
  end%nat.

Definition Measurements_of_nat (n : nat) : Measurements :=
  match n with
  | 0 => position
  | 1 => velocity
  | 2 => acceleration
  | _ => encoder_index
  end%nat.

#[global] Instance Measurements_countable : Countable Measurements.
Proof.
  apply (inj_countable' Measurements_to_nat Measurements_of_nat).
  intros []; reflexivity.
Defined.

(** ** Measurement history *)

(** The time series container is an external library. Of its interface the
    joint module uses [length()], [newest_timeindex()] and
    [newest_element()]. A history is the list of retained samples, oldest
    first, each with its logical time index. [newest_element()] and
    [newest_timeindex()] are only called behind a [length() == 0] guard; on
    an empty history the embedding gives them the placeholder values below,
    which no caller in this file observes. *)
Module TimeSeries.

Record sample : Set := Sample { timeindex : Z; element : double }.

Definition t := list sample.

Definition length (h : t) : Z := Z.of_nat (List.length h).

Definition newest (h : t) : sample := List.last h (Sample 0 PrimFloat.zero).

Definition newest_timeindex (h : t) : Z := timeindex (newest h).

Definition newest_element (h : t) : double := element (newest h).

End TimeSeries.

(** [EncoderInterface::get_measurement(id)]: the history of one channel. *)
Definition EncoderInterface := Measurements -> TimeSeries.t.

(** ** Joint limits: [struct JointLimit] *)

Record JointLimit : Set := MkJointLimit { min : double; max : double }.

(** The default constructor [JointLimit()]. *)
Definition JointLimit_default : JointLimit :=
  let m := numeric_lowest in
  let M := numeric_max in
  MkJointLimit m M.

(** [template <typename T> static bool in_range(T value, T min, T max)] *)
Definition in_range (value min max : double) : bool :=
  PrimFloat.leb min value && PrimFloat.ltb value max.

(** ** The joint module: [class EncoderJointModule] *)

(** The members are the ones [encoder_joint_module.cpp] reads and writes.
    [limits_] is a map from measurement kind to limit that is indexed with
    [operator[]] and [at()] and iterated; the result of [check_limits] does
    not depend on the iteration order. *)
Record EncoderJointModule : Type := MkEncoderJointModule {
  joint_id_ : JointNamesIndex;
  encoder_ : EncoderInterface;
  gear_ratio_ : double;
  zero_angle_ : double;
  polarity_ : double;
  (** the limit table, keyed by measurement kind *)
  limits_ : gmap Measurements JointLimit;
  (** the mutex [limit_door_]: [true] while it is held *)
  limit_door_ : bool
}.

Definition with_zero_angle (z : double) (m : EncoderJointModule) :=
  MkEncoderJointModule (joint_id_ m) (encoder_ m) (gear_ratio_ m) z
    (polarity_ m) (limits_ m) (limit_door_ m).

Definition with_polarity (p : double) (m : EncoderJointModule) :=
  MkEncoderJointModule (joint_id_ m) (encoder_ m) (gear_ratio_ m)
    (zero_angle_ m) p (limits_ m) (limit_door_ m).

Definition with_limits (l : gmap Measurements JointLimit)
    (m : EncoderJointModule) :=
  MkEncoderJointModule (joint_id_ m) (encoder_ m) (gear_ratio_ m)
    (zero_angle_ m) (polarity_ m) l (limit_door_ m).

Definition with_limit_door (d : bool) (m : EncoderJointModule) :=
  MkEncoderJointModule (joint_id_ m) (encoder_ m) (gear_ratio_ m)
    (zero_angle_ m) (polarity_ m) (limits_ m) d.

(** [void set_zero_angle(const double &)] *)
Definition set_zero_angle (zero_angle : double) (m : EncoderJointModule) :
    EncoderJointModule :=
  with_zero_angle zero_angle m.

(** [void set_joint_polarity(const bool &)] *)
Definition set_joint_polarity (reverse_polarity : bool)
    (m : EncoderJointModule) : EncoderJointModule :=
  with_polarity (if reverse_polarity then (-1)%float else 1%float) m.

(** The constructor: the member initialisers, then [set_zero_angle]. The
    initialiser list does not name [limits_] and [limit_door_], which are
    default-constructed: an empty table and a free mutex. [zero_angle_] is
    first written by [set_zero_angle]. No argument is examined. *)
Definition EncoderJointModule_new (joint_id : JointNamesIndex)
    (encoder : EncoderInterface) (gear_ratio zero_angle : double)
    (reverse_polarity : bool) : EncoderJointModule :=
  set_zero_angle zero_angle
    (MkEncoderJointModule joint_id encoder gear_ratio PrimFloat.zero
       (if reverse_polarity then (-1)%float else 1%float) ∅ false).

(** [create_encoder_module(joint_index)] of the registry: the encoder it
    builds over the board is external and taken as given; the module is
    constructed with gear ratio 1.0, zero angle 0.0 and normal polarity. *)
Definition create_encoder_module (joint_index : JointNamesIndex)
    (encoder : EncoderInterface) : EncoderJointModule :=
  EncoderJointModule_new joint_index encoder 1%float 0%float false.

(** [double get_joint_measurement(const Measurements &) const] *)
Definition get_joint_measurement (m : EncoderJointModule)
    (measurement_id : Measurements) : double :=
  let measurement_history := encoder_ m measurement_id in
  if TimeSeries.length measurement_history =? 0 then quiet_NaN
  else PrimFloat.mul (polarity_ m)
         (TimeSeries.newest_element measurement_history).

(** [long int get_joint_measurement_index(const Measurements &) const] *)
Definition get_joint_measurement_index (m : EncoderJointModule)
    (measurement_id : Measurements) : Z :=
  let measurement_history := encoder_ m measurement_id in
  if TimeSeries.length measurement_history =? 0 then -1
  else TimeSeries.newest_timeindex measurement_history.

Definition get_measured_angle (m : EncoderJointModule) : double :=
  PrimFloat.sub
    (PrimFloat.div (get_joint_measurement m position) (gear_ratio_ m))
    (zero_angle_ m).

Definition get_measured_velocity (m : EncoderJointModule) : double :=
  PrimFloat.div (get_joint_measurement m velocity) (gear_ratio_ m).

Definition get_measured_acceleration (m : EncoderJointModule) : double :=
  PrimFloat.div (get_joint_measurement m acceleration) (gear_ratio_ m).

Definition get_measured_index_angle (m : EncoderJointModule) : double :=
  PrimFloat.div (get_joint_measurement m encoder_index) (gear_ratio_ m).

Definition get_zero_angle (m : EncoderJointModule) : double := zero_angle_ m.

(** ** Statements with early return, exceptions and a mutex

    The limit operations lock and unlock [limit_door_] around their bodies,
    and one of them leaves through [return] and through the exception of
    [at()]. A statement therefore either falls through to the next
    statement, returns from the function, throws, or blocks for ever in
    [lock()]. *)

Inductive exception : Set :=
  | out_of_range.

Inductive flow (R A : Type) : Type :=
  | Next (a : A) (m : EncoderJointModule)
  | Ret (r : R) (m : EncoderJointModule)
  | Throw (e : exception) (m : EncoderJointModule)
  | Block.
Arguments Next {R A} a m.
Arguments Ret {R A} r m.
Arguments Throw {R A} e m.
Arguments Block {R A}.

Definition stmt (R A : Type) : Type := EncoderJointModule -> flow R A.

Definition seq {R A B} (c : stmt R A) (k : A -> stmt R B) : stmt R B :=
  fun m =>
    match c m with
    | Next a m' => k a m'
    | Ret r m' => Ret r m'
    | Throw e m' => Throw e m'
    | Block => Block
    end.

Declare Scope stmt_scope.
Delimit Scope stmt_scope with stmt.
Notation "x <- c ;; k" := (seq c (fun x => k))
  (at level 100, c at next level, right associativity) : stmt_scope.
Notation "c ;; k" := (seq c (fun _ => k))
  (at level 100, right associativity) : stmt_scope.

(** [return r;] *)
Definition return_ {R A} (r : R) : stmt R A := fun m => Ret r m.

(** [limit_door_.lock()]: a [std::mutex] that is already held is never
    acquired in a sequential run. *)
Definition lock_limit_door {R} : stmt R unit :=
  fun m => if limit_door_ m then Block else Next tt (with_limit_door true m).

(** [limit_door_.unlock()] *)
Definition unlock_limit_door {R} : stmt R unit :=
  fun m => Next tt (with_limit_door false m).

(** What a caller observes of a call. *)
Inductive result (R : Type) : Type :=
  | Returned (r : R) (m : EncoderJointModule)
  | Threw (e : exception) (m : EncoderJointModule)
  | Blocked
  | NoReturn (m : EncoderJointModule).
Arguments Returned {R} r m.
Arguments Threw {R} e m.
Arguments Blocked {R}.
Arguments NoReturn {R} m.

(** Running the body of a function that returns a value: reaching the end
    of the body without a [return] is [NoReturn]. *)
Definition call {R} (body : stmt R unit) (m : EncoderJointModule) : result R :=
  match body m with
  | Next _ m' => NoReturn m'
  | Ret r m' => Returned r m'
  | Throw e m' => Threw e m'
  | Block => Blocked
  end.

(** Running the body of a [void] function: the end of the body returns. *)
Definition call_void (body : stmt unit unit) (m : EncoderJointModule) :
    result unit :=
  match body m with
  | Next _ m' => Returned tt m'
  | Ret r m' => Returned r m'
  | Throw e m' => Threw e m'
  | Block => Blocked
  end.

(** ** The limit operations *)

Local Open Scope stmt_scope.

(** [limits_[index] = limit;] *)
Definition limits_assign {R} (index : Measurements) (limit : JointLimit) :
    stmt R unit :=
  fun m => Next tt (with_limits (<[index := limit]> (limits_ m)) m).

(** [limits_.at(index)]: throws [std::out_of_range] on a missing key. *)
Definition limits_at {R} (index : Measurements) : stmt R JointLimit :=
  fun m =>
    match limits_ m !! index with
    | Some l => Next l m
    | None => Throw out_of_range m
    end.

(** [void set_limit(const Measurements &, const JointLimit &)] *)
Definition set_limit (index : Measurements) (limit : JointLimit) :
    EncoderJointModule -> result unit :=
  call_void (
    lock_limit_door ;;
    limits_assign index limit ;;
    unlock_limit_door).

(** [JointLimit get_limit(const Measurements &) const]: the statement after
    the [return] is kept where the source has it. *)
Definition get_limit (index : Measurements) :
    EncoderJointModule -> result JointLimit :=
  call (
    lock_limit_door ;;
    (l <- limits_at index ;; return_ (A := unit) l) ;;
    unlock_limit_door).

(** The [switch] of [check_limits]; the kinds other than position, velocity
    and acceleration take the [default] branch. *)
Definition check_limits_measurement (m : EncoderJointModule)
    (meassurement_id : Measurements) : double :=
  match meassurement_id with
  | position => get_measured_angle m
  | velocity => get_measured_velocity m
  | acceleration => get_measured_acceleration m
  | _ => PrimFloat.zero
  end.

(** One iteration of the loop of [check_limits] over an entry of the table. *)
Definition check_limits_step (m : EncoderJointModule)
    (meassurement_id : Measurements) (joint_limit : JointLimit)
    (valid : bool) : bool :=
  let meassurement := check_limits_measurement m meassurement_id in
  if negb (isnan meassurement &&
           bool_decide (meassurement_id = acceleration))
  then valid && in_range meassurement (min joint_limit) (max joint_limit)
  else valid.

(** [for (const auto &limit_info : limits_) ...], from [valid = true]. *)
Definition check_limits_loop (m : EncoderJointModule) : bool :=
  map_fold (check_limits_step m) true (limits_ m).

(** [bool check_limits() const] *)
Definition check_limits : EncoderJointModule -> result bool :=
  call (
    lock_limit_door ;;
    valid <- (fun m => Next (check_limits_loop m) m) ;;
    unlock_limit_door ;;
    return_ valid).

Local Close Scope stmt_scope.

(** The calibrated getter of each channel, as the public interface names
    them: [get_measured_angle], [get_measured_velocity],
    [get_measured_acceleration] and [get_measured_index_angle]. *)
Definition calibrated_measurement (m : EncoderJointModule)
    (k : Measurements) : double :=
  match k with
  | position => get_measured_angle m
  | velocity => get_measured_velocity m
  | acceleration => get_measured_acceleration m
  | encoder_index => get_measured_index_angle m
  end.

(** The test one table entry contributes to the result of [check_limits]:
    one iteration of its loop entered with [valid = true]. *)
Definition limit_entry_ok (m : EncoderJointModule) (k : Measurements)
    (l : JointLimit) : bool :=
  check_limits_step m k l true.

(** The states a module can be in after any sequence of calls of its
    state-changing member functions that came back to the caller (by
    returning or by throwing), starting from [m0]. The getters are [const]
    and leave the module as it is. *)
Inductive reachable (m0 : EncoderJointModule) : EncoderJointModule -> Prop :=
  | reach_start : reachable m0 m0
  | reach_set_zero_angle m z :
      reachable m0 m -> reachable m0 (set_zero_angle z m)
  | reach_set_joint_polarity m r :
      reachable m0 m -> reachable m0 (set_joint_polarity r m)
  | reach_set_limit m k l m' :
      reachable m0 m -> set_limit k l m = Returned tt m' -> reachable m0 m'
  | reach_get_limit m k l m' :
      reachable m0 m -> get_limit k m = Returned l m' -> reachable m0 m'
  | reach_get_limit_threw m k e m' :
      reachable m0 m -> get_limit k m = Threw e m' -> reachable m0 m'
  | reach_check_limits m valid m' :
      reachable m0 m -> check_limits m = Returned valid m' -> reachable m0 m'.

(** ** The joint registry: [class Monopod] *)

(** Modelled from the spec: the motor joint module is declared in a header
    that is not among the sources. Of it the registry needs the per-joint
    command slot (section 4.3) that [set_torque_target] writes. *)
Record MotorJointModule : Type := MkMotorJointModule {
  torque_target_ : double
}.

Record Monopod : Type := MkMonopod {
  encoders_ : gmap Z EncoderJointModule;
  motors_ : gmap Z MotorJointModule;
  is_initialized : bool;
  write_joint_indexing : list Z;
  read_joint_indexing : list Z
}.

(** [template <typename T> bool Contains(const std::vector<T> &, const T &)]
    at [T = int]: [std::find] runs to the first equal element. *)
Fixpoint Contains (Vec : list Z) (Element : Z) : bool :=
  match Vec with
  | [] => false
  | x :: rest => if x =? Element then true else Contains rest Element
  end.

(** [joint_indexes.empty() ? canonical : joint_indexes]: the index list a
    batch call walks. *)
Definition index_or_default (joint_indexes canonical : list Z) : list Z :=
  match joint_indexes with
  | [] => canonical
  | _ => joint_indexes
  end.

(** [template <typename T> static int sgn(T val)]:
    [(T(0) < val) - (val < T(0))], the two comparisons promoted to [int].
    [zero] is [T(0)] and [lt] the [<] of [T]. *)
Definition bool_to_int (b : bool) : Z := if b then 1 else 0.

Definition sgn {T : Type} (zero : T) (lt : T -> T -> bool) (val : T) : Z :=
  bool_to_int (lt zero val) - bool_to_int (lt val zero).

(** [sgn<int>] and [sgn<double>] *)
Definition sgn_int : Z -> Z := sgn 0 Z.ltb.
Definition sgn_double : double -> Z := sgn PrimFloat.zero PrimFloat.ltb.

(** The loop of [getJointDataSerialized]: [data] is the vector built so far;
    the first index that fails the test returns [std::nullopt]. *)
Fixpoint getJointDataSerialized_loop (this : Monopod)
    (getJointData : Z -> double) (jointSerialization : list Z)
    (data : list double) : option (list double) :=
  match jointSerialization with
  | [] => Some data
  | joint_index :: rest =>
      if is_initialized this &&
         Contains (read_joint_indexing this) joint_index
      then getJointDataSerialized_loop this getJointData rest
             (data ++ [getJointData joint_index])
      else None
  end.

(** [getJointDataSerialized(monopod, joint_indexes, getJointData)]: the
    default order is read from [monopod], the tests from [this]. *)
Definition getJointDataSerialized (this monopod : Monopod)
    (joint_indexes : list Z) (getJointData : Z -> double) :
    option (list double) :=
  let jointSerialization :=
    index_or_default joint_indexes (read_joint_indexing monopod) in
  getJointDataSerialized_loop this getJointData jointSerialization [].

Definition with_motors (ms : gmap Z MotorJointModule) (this : Monopod) :=
  MkMonopod (encoders_ this) ms (is_initialized this)
    (write_joint_indexing this) (read_joint_indexing this).

(** Modelled from the spec: the write into "the per-joint command slot of
    the addressed Joint Modules" (section 4.3); the motor module's own
    setter is not among the sources. *)
Definition write_torque_target (this : Monopod) (cmd : Z * double) :
    Monopod :=
  with_motors (<[cmd.1 := MkMotorJointModule cmd.2]> (motors_ this)) this.

(** Modelled from the spec: the body of [set_torque_target] is in
    [monopod.cpp], which is not among the sources. Section 4.3: it "returns
    failure (boolean false) if the system is uninitialized or any index is
    not controllable", and otherwise writes the command slot. *)
Definition set_torque_target (torque_target : double) (joint_index : Z)
    (this : Monopod) : bool * Monopod :=
  if is_initialized this &&
     Contains (write_joint_indexing this) joint_index
  then (true, write_torque_target this (joint_index, torque_target))
  else (false, this).

(** Modelled from the spec: the body of [set_torque_targets] is in
    [monopod.cpp], which is not among the sources. Section 4.3: "a batch
    call must validate every index before mutating any module's command
    state"; with no explicit index list the canonical
    [write_joint_indexing] order is walked. The targets are paired with the
    walked indexes in order. *)
Definition set_torque_targets (torque_targets : list double)
    (joint_indexes : list Z) (this : Monopod) : bool * Monopod :=
  let jointSerialization :=
    index_or_default joint_indexes (write_joint_indexing this) in
  if is_initialized this &&
     forallb (Contains (write_joint_indexing this)) jointSerialization
  then (true,
        fold_left write_torque_target
          (combine jointSerialization torque_targets) this)
  else (false, this).

#[local] Set Warnings "-inexact-float".

(** ** The demo controller: [class SinePositionControl] *)

(** [SinePositionControl::loop] and [stop_loop]
    ([src/demos/sine_position_control.cpp], first document). The leg, the
    spinner, the timer and the file stream are external: one turn of the
    loop takes the measurements [leg_->get_measurements()] delivered as its
    input and yields the torques it hands to [set_target_torques] and
    whether it printed; [stop_loop] yields the numbers it writes, line by
    line. [sin] is the one of [<cmath>]. *)
Module SinePositionControl.

(** The second index of [data[joint][...]] as the loop uses it. *)
Inductive MeasurementIndex : Set :=
  | position
  | velocity
  | torque.

Definition Measurements' := JointNamesIndex -> MeasurementIndex -> double.

(** The members the two functions use: the gains and the four logs, each a
    vector of per-joint sequences. *)
Record t : Type := Mk {
  kp_ : double;
  kd_ : double;
  encoders_ : list (list double);
  velocities_ : list (list double);
  torques_ : list (list double);
  control_buffer_ : list (list double)
}.

(** [log[i].push_back(x)] *)
Definition push_back_at (i : nat) (x : double) (log : list (list double)) :
    list (list double) :=
  alter (fun row => row ++ [x]) i log.

(** [log[i]] and [log[i][j]] *)
Definition row (log : list (list double)) (i : nat) : list double :=
  default [] (log !! i).

Definition at_ (log : list (list double)) (i j : nat) : option double :=
  log !! i ≫= fun r => r !! j.

(** [size_t] to [double], round to nearest even. *)
Definition size_t_to_double (n : Z) : double :=
  SF2Prim (binary_normalize prec emax n 0 false).

(** [(int) x] for a finite [x]: truncation toward zero. *)
Definition double_to_int (x : double) : Z :=
  match Prim2SF x with
  | S754_finite s mant e =>
      let magnitude :=
        if 0 <=? e then Z.pos mant * 2 ^ e else Z.pos mant / 2 ^ (- e) in
      if s then - magnitude else magnitude
  | _ => 0
  end.

Definition M_PI : double := 0x1.921fb54442d18p+1%float.

Definition control_period : double := 0.001%float.
Definition amplitude : double := 0.1%float.
Definition frequence : double := 0.5%float.
Definition desired_velocity_hip : double := 0%float.
Definition desired_velocity_knee : double := 0%float.

(** What one turn of the loop hands to the outside. *)
Record turn : Type := Turn {
  target_torques : list double;
  printed : bool
}.

(** The first and the second entry of a torque command. *)
Definition hip_of (o : turn) : option double := target_torques o !! 0%nat.
Definition knee_of (o : turn) : option double := target_torques o !! 1%nat.

Section Loop.

Variable sin : double -> double.

(** The body of [while (!stop_loop_)], at loop counter [count]. *)
Definition loop_body (this : t) (count : Z) (data : Measurements') :
    turn * t * Z :=
  let local_time := PrimFloat.mul (size_t_to_double count) control_period in
  let actual_position_hip := data hip_joint position in
  let actual_position_knee := data knee_joint position in
  let actual_velocity_hip := data hip_joint velocity in
  let actual_velocity_knee := data knee_joint velocity in
  let actual_torque_hip := data hip_joint torque in
  let actual_torque_knee := data knee_joint torque in
  let desired_position :=
    PrimFloat.mul amplitude
      (sin (PrimFloat.mul
              (PrimFloat.mul (PrimFloat.mul 2 M_PI) frequence)
              local_time)) in
  let desired_position_hip := desired_position in
  let desired_position_knee := desired_position in
  let desired_torque_hip :=
    PrimFloat.add
      (PrimFloat.mul (kp_ this)
         (PrimFloat.sub desired_position_hip actual_position_hip))
      (PrimFloat.mul (kd_ this)
         (PrimFloat.sub desired_velocity_hip actual_velocity_hip)) in
  let desired_torque_knee :=
    PrimFloat.add
      (PrimFloat.mul (kp_ this)
         (PrimFloat.sub desired_position_knee actual_position_knee))
      (PrimFloat.mul (kd_ this)
         (PrimFloat.sub desired_velocity_knee actual_velocity_knee)) in
  let this' :=
    Mk (kp_ this) (kd_ this)
      (push_back_at 1 actual_position_knee
         (push_back_at 0 actual_position_hip (encoders_ this)))
      (push_back_at 1 actual_velocity_knee
         (push_back_at 0 actual_velocity_hip (velocities_ this)))
      (push_back_at 1 actual_torque_knee
         (push_back_at 0 actual_torque_hip (torques_ this)))
      (push_back_at 1 desired_torque_knee
         (push_back_at 0 desired_torque_hip (control_buffer_ this))) in
  let printed :=
    count mod double_to_int (PrimFloat.div 0.2 control_period) =? 0 in
  (Turn [desired_torque_hip; desired_torque_knee] printed,
   this', (count + 1) mod 2 ^ 64).

(** The loop, for as many turns as [stop_loop_] lets it run: one turn per
    delivered measurement. *)
Fixpoint loop_from (this : t) (count : Z) (inputs : list Measurements') :
    list turn * t * Z :=
  match inputs with
  | [] => ([], this, count)
  | data :: later =>
      let '(out, this', count') := loop_body this count data in
      let '(outs, this'', count'') := loop_from this' count' later in
      (out :: outs, this'', count'')
  end.

Definition loop (this : t) (inputs : list Measurements') :
    list turn * t * Z :=
  loop_from this 0 inputs.

End Loop.

(** The [assert] of [stop_loop]. *)
Definition stop_loop_assertion (this : t) : bool :=
  (List.length (row (encoders_ this) 0) =?
     List.length (row (velocities_ this) 0))%nat &&
  (List.length (row (velocities_ this) 0) =?
     List.length (row (control_buffer_ this) 0))%nat &&
  (List.length (row (control_buffer_ this) 0) =?
     List.length (row (torques_ this) 0))%nat.

(** The numbers of line [j] of the dump: for each [i], [encoders_[i][j]],
    [velocities_[i][j]], [control_buffer_[i][j]] and [torques_[i][j]].
    [None] is a read past the end of a sequence. *)
Definition dump_line (this : t) (j : nat) : option (list double) :=
  mjoin <$>
    mapM (fun i =>
            e ← at_ (encoders_ this) i j;
            v ← at_ (velocities_ this) i j;
            c ← at_ (control_buffer_ this) i j;
            q ← at_ (torques_ this) i j;
            Some [e; v; c; q])
         (List.seq 0%nat (List.length (encoders_ this))).

(** The lines [stop_loop] writes, [j] from 0 to [encoders_[0].size()]. *)
Definition stop_loop (this : t) : option (list (list double)) :=
  mapM (dump_line this)
    (List.seq 0%nat (List.length (row (encoders_ this) 0))).

(** The logs are aligned at [n]: each log has the two per-joint sequences
    the loop appends to, and all eight hold [n] entries. *)
Definition aligned (this : t) (n : nat) : Prop :=
  Forall (fun log =>
            List.length log = 2%nat /\
            Forall (fun r => List.length r = n) log)
    [encoders_ this; velocities_ this; torques_ this; control_buffer_ this].

End SinePositionControl.

(** ** Concrete modules and registries used by the examples *)

(** A module as the registry builds them ([create_encoder_module]: gear
    ratio 1, zero angle 0, normal polarity) over a board that has so far
    delivered one position sample, 0.5 at time index 7, and nothing on the
    other channels. *)
Definition one_position_sample : EncoderInterface :=
  fun k =>
    match k with
    | position => [TimeSeries.Sample 7 0.5%float]
    | _ => []
    end.

Definition fresh_hip : EncoderJointModule :=
  EncoderJointModule_new hip_joint one_position_sample 1%float 0%float false.

(** [fresh_hip] with a position limit [0, 1) and an acceleration limit
    [0, 1): the position reads 0.5, the acceleration channel has no data. *)
Definition limited_hip : EncoderJointModule :=
  with_limits
    (<[position := MkJointLimit 0 1]>
       (<[acceleration := MkJointLimit 0 1]> ∅))
    fresh_hip.

(** A module whose only limit is [1, 2) on [encoder_index], over a board
    whose index channel reads 1.5. *)
Definition one_index_sample : EncoderInterface :=
  fun k =>
    match k with
    | encoder_index => [TimeSeries.Sample 3 1.5%float]
    | _ => []
    end.

Definition index_limited : EncoderJointModule :=
  with_limits (<[encoder_index := MkJointLimit 1 2]> ∅)
    (EncoderJointModule_new hip_joint one_index_sample 1%float 0%float false).

(** A module constructed with gear ratio 0. *)
Definition zero_geared : EncoderJointModule :=
  EncoderJointModule_new hip_joint one_position_sample 0%float 0%float false.

(** A controller with gains 5 and 0.1 and empty logs, and two delivered
    measurements: the leg at rest, then the hip at 0.25 moving at 1. *)
Definition resting_controller : SinePositionControl.t :=
  SinePositionControl.Mk 5 0.1 [[]; []] [[]; []] [[]; []] [[]; []].

Definition two_measurements : list SinePositionControl.Measurements' :=
  [fun _ _ => 0%float;
   fun joint index =>
     match joint, index with
     | hip_joint, SinePositionControl.position => 0.25%float
     | hip_joint, SinePositionControl.velocity => 1%float
     | _, _ => 0%float
     end].

(** A registry on which [initialize] has not run: nothing registered, the
    index vectors empty. *)
Definition unstarted : Monopod := MkMonopod ∅ ∅ false [] [].

(** The registry of the scenario of section 8: joint 0 readable and
    controllable with its command slot at 0, joint 1 readable only. *)
Definition two_joints : Monopod :=
  MkMonopod ∅ (<[0 := MkMotorJointModule 0]> ∅) true [0] [0; 1].

(** * Properties *)

(** ** Facts about doubles *)

Section DoubleFacts.

Lemma nan_div (g : double) : PrimFloat.div quiet_NaN g = quiet_NaN.
Proof.
  apply Prim2SF_inj. rewrite div_spec. reflexivity.
Qed.

Lemma nan_sub (z : double) : PrimFloat.sub quiet_NaN z = quiet_NaN.
Proof.
  apply Prim2SF_inj. rewrite sub_spec. reflexivity.
Qed.

Lemma isnan_quiet_NaN : isnan quiet_NaN = true.
Proof. reflexivity. Qed.

End DoubleFacts.

(** ** Calibrated getters *)

Section Getters.

Variable m : EncoderJointModule.

Lemma get_joint_measurement_empty (k : Measurements) :
  TimeSeries.length (encoder_ m k) = 0 ->
  get_joint_measurement m k = quiet_NaN.
Proof.
  intros Hlen. unfold get_joint_measurement. cbv zeta.
  rewrite Hlen. reflexivity.
Qed.

Lemma get_joint_measurement_nonempty (k : Measurements) :
  TimeSeries.length (encoder_ m k) <> 0 ->
  get_joint_measurement m k =
    PrimFloat.mul (polarity_ m) (TimeSeries.newest_element (encoder_ m k)).
Proof.
  intros Hlen. unfold get_joint_measurement. cbv zeta.
  apply Z.eqb_neq in Hlen. rewrite Hlen. reflexivity.
Qed.

Lemma calibrated_measurement_empty (k : Measurements) :
  TimeSeries.length (encoder_ m k) = 0 ->
  calibrated_measurement m k = quiet_NaN.
Proof.
  intros Hlen.
  destruct k; cbn [calibrated_measurement];
    unfold get_measured_angle, get_measured_velocity,
      get_measured_acceleration, get_measured_index_angle;
    rewrite (get_joint_measurement_empty _ Hlen), nan_div;
    [apply nan_sub | reflexivity ..].
Qed.

End Getters.

(** C2. With a non-empty history on a channel, the calibrated getter of that
    channel is [polarity * raw_newest / gear_ratio], where [raw_newest] is
    the newest element of the channel's history; [get_measured_angle]
    subtracts [zero_angle] from that. The getters are functions of the
    module alone and return only the value: they leave the module as it
    was. *)
Theorem calibrated_getter_formula (m : EncoderJointModule) :
  let raw k := TimeSeries.newest_element (encoder_ m k) in
  let scaled k :=
    PrimFloat.div (PrimFloat.mul (polarity_ m) (raw k)) (gear_ratio_ m) in
  (TimeSeries.length (encoder_ m position) <> 0 ->
     get_measured_angle m = PrimFloat.sub (scaled position) (zero_angle_ m)) /\
  (TimeSeries.length (encoder_ m velocity) <> 0 ->
     get_measured_velocity m = scaled velocity) /\
  (TimeSeries.length (encoder_ m acceleration) <> 0 ->
     get_measured_acceleration m = scaled acceleration) /\
  (TimeSeries.length (encoder_ m encoder_index) <> 0 ->
     get_measured_index_angle m = scaled encoder_index).
Proof.
  cbv zeta.
  unfold get_measured_angle, get_measured_velocity,
    get_measured_acceleration, get_measured_index_angle.
  repeat split; intros Hlen;
    rewrite (get_joint_measurement_nonempty _ _ Hlen); reflexivity.
Qed.

(** C5. On a channel whose history is empty the calibrated getter returns
    NaN and [get_joint_measurement_index] returns -1; on a channel with
    samples [get_joint_measurement_index] returns the newest logical time
    index. *)
Theorem no_data_signals (m : EncoderJointModule) :
  (TimeSeries.length (encoder_ m position) = 0 ->
     isnan (get_measured_angle m) = true) /\
  (TimeSeries.length (encoder_ m velocity) = 0 ->
     isnan (get_measured_velocity m) = true) /\
  (TimeSeries.length (encoder_ m acceleration) = 0 ->
     isnan (get_measured_acceleration m) = true) /\
  (TimeSeries.length (encoder_ m encoder_index) = 0 ->
     isnan (get_measured_index_angle m) = true) /\
  (forall k, TimeSeries.length (encoder_ m k) = 0 ->
     get_joint_measurement_index m k = -1) /\
  (forall k, TimeSeries.length (encoder_ m k) <> 0 ->
     get_joint_measurement_index m k =
       TimeSeries.newest_timeindex (encoder_ m k)).
Proof.
  pose proof (calibrated_measurement_empty m) as Hnan.
  repeat split.
  - intros Hlen. apply (Hnan position) in Hlen.
    cbn [calibrated_measurement] in Hlen. rewrite Hlen. reflexivity.
  - intros Hlen. apply (Hnan velocity) in Hlen.
    cbn [calibrated_measurement] in Hlen. rewrite Hlen. reflexivity.
  - intros Hlen. apply (Hnan acceleration) in Hlen.
    cbn [calibrated_measurement] in Hlen. rewrite Hlen. reflexivity.
  - intros Hlen. apply (Hnan encoder_index) in Hlen.
    cbn [calibrated_measurement] in Hlen. rewrite Hlen. reflexivity.
  - intros k Hlen. unfold get_joint_measurement_index. cbv zeta.
    rewrite Hlen. reflexivity.
  - intros k Hlen. unfold get_joint_measurement_index. cbv zeta.
    apply Z.eqb_neq in Hlen. rewrite Hlen. reflexivity.
Qed.

Lemma calibrated_getter_formula_witness :
  get_measured_angle fresh_hip = 0.5%float.
Proof.
  refine (eq_trans (proj1 (calibrated_getter_formula fresh_hip) _) _).
  - vm_compute. discriminate.
  - vm_compute. reflexivity.
Defined.

Lemma no_data_signals_witness :
  isnan (get_measured_velocity fresh_hip) = true /\
  get_joint_measurement_index fresh_hip acceleration = -1 /\
  get_joint_measurement_index fresh_hip position = 7.
Proof.
  pose proof (no_data_signals fresh_hip) as (_ & Hv & _ & _ & Hi & Hn).
  split; [| split].
  - apply Hv. reflexivity.
  - apply Hi. reflexivity.
  - rewrite Hn; [reflexivity | vm_compute; discriminate].
Defined.

(** The scenario of section 8: raw position sample 0.5, gear ratio 1, zero
    angle 0, normal polarity reads 0.5; after [set_zero_angle(0.2)] it reads
    0.3. *)
Example zero_angle_scenario :
  get_measured_angle fresh_hip = 0.5%float /\
  get_measured_angle (set_zero_angle 0.2%float fresh_hip) = 0.3%float.
Proof. split; vm_compute; reflexivity. Qed.

(** ** Comparisons of doubles at a boundary *)

Section Boundary.

Lemma SFcompare_Eq_inv (x y : spec_float) :
  SFcompare x y = Some Eq ->
  x = y \/ exists s1 s2, x = S754_zero s1 /\ y = S754_zero s2.
Proof.
  destruct x as [sx | sx | | sx mx ex], y as [sy | sy | | sy my ey];
    cbn [SFcompare]; try discriminate;
    try (destruct sx; discriminate); try (destruct sy; discriminate).
  - intros _. right. eauto.
  - destruct sx, sy; try discriminate; intros _; left; reflexivity.
  - destruct sx, sy; try discriminate;
      destruct (ex ?= ey) eqn:He; try discriminate;
      apply Z.compare_eq in He; subst ey;
      intros Hm; left; f_equal;
      apply Pos.compare_eq; unfold Pos.compare;
      destruct (Pos.compare_cont Eq mx my); (reflexivity || discriminate).
Qed.

Lemma SFcompare_diag_not_Lt (x : spec_float) : SFcompare x x <> Some Lt.
Proof.
  destruct x as [s | s | | s m e]; cbn [SFcompare]; try discriminate.
  - destruct s; discriminate.
  - fold (Pos.compare m m).
    destruct s; rewrite Z.compare_refl, Pos.compare_refl; discriminate.
Qed.

(** [max == min] and [min == value] leave no room for [value < max]. *)
Lemma ltb_false_of_eqb (value min max : double) :
  PrimFloat.eqb max min = true ->
  PrimFloat.eqb min value = true ->
  PrimFloat.ltb value max = false.
Proof.
  rewrite !FloatAxioms.eqb_spec, ltb_spec. unfold SFeqb, SFltb.
  destruct (SFcompare (Prim2SF max) (Prim2SF min)) as [[] |] eqn:H1;
    try discriminate.
  destruct (SFcompare (Prim2SF min) (Prim2SF value)) as [[] |] eqn:H2;
    try discriminate.
  intros _ _.
  destruct (SFcompare (Prim2SF value) (Prim2SF max)) as [[] |] eqn:H3;
    try reflexivity.
  exfalso.
  apply SFcompare_Eq_inv in H1, H2.
  destruct H1 as [H1 | (s1 & s2 & H1 & H1')],
           H2 as [H2 | (s3 & s4 & H2 & H2')].
  - rewrite H1, H2 in H3. exact (SFcompare_diag_not_Lt _ H3).
  - rewrite H1, H2, H2' in H3. discriminate.
  - rewrite <- H2, H1, H1' in H3. discriminate.
  - rewrite H1, H2' in H3. discriminate.
Qed.

Lemma in_range_degenerate (value min max : double) :
  PrimFloat.eqb max min = true ->
  PrimFloat.eqb min value = true ->
  in_range value min max = false.
Proof.
  intros H1 H2. unfold in_range.
  rewrite (ltb_false_of_eqb _ _ _ H1 H2). apply andb_false_r.
Qed.

End Boundary.

Lemma isnan_false_of_eqb (a value : double) :
  PrimFloat.eqb a value = true -> isnan value = false.
Proof.
  unfold isnan, PrimFloat.is_nan.
  rewrite !FloatAxioms.eqb_spec. unfold SFeqb.
  destruct (SFcompare (Prim2SF a) (Prim2SF value)) as [[] |] eqn:H;
    try discriminate.
  intros _. pose proof H as Hc. apply SFcompare_Eq_inv in H.
  destruct H as [H | (s1 & s2 & H & H')].
  - rewrite <- H in Hc |- *. rewrite Hc. reflexivity.
  - rewrite H'. reflexivity.
Qed.

(** ** The limit operations on a free mutex *)

Section LimitCalls.

Variable m : EncoderJointModule.
Hypothesis door_free : limit_door_ m = false.

Lemma relock_id : with_limit_door false (with_limit_door true m) = m.
Proof. destruct m; cbn in *. subst. reflexivity. Qed.

Lemma check_limits_returns :
  check_limits m = Returned (check_limits_loop m) m.
Proof.
  unfold check_limits, call, seq, lock_limit_door, unlock_limit_door, return_.
  rewrite door_free.
  change (with_limit_door false (with_limit_door true (with_limit_door true m)))
    with (with_limit_door false (with_limit_door true m)).
  rewrite relock_id. reflexivity.
Qed.

Lemma set_limit_returns (index : Measurements) (limit : JointLimit) :
  set_limit index limit m =
    Returned tt (with_limits (<[index := limit]> (limits_ m)) m).
Proof.
  unfold set_limit, call_void, seq, lock_limit_door, unlock_limit_door,
    limits_assign.
  rewrite door_free. f_equal.
  destruct m; cbn in *. subst. reflexivity.
Qed.

Lemma get_limit_outcome (index : Measurements) :
  get_limit index m =
    match limits_ m !! index with
    | Some l => Returned l (with_limit_door true m)
    | None => Threw out_of_range (with_limit_door true m)
    end.
Proof.
  unfold get_limit, call, seq, lock_limit_door, limits_at, return_.
  rewrite door_free.
  change (limits_ (with_limit_door true m)) with (limits_ m).
  destruct (limits_ m !! index); reflexivity.
Qed.

End LimitCalls.

(** A held mutex stops each of the three operations in [lock()]. *)
Lemma limit_calls_block (m : EncoderJointModule) (index : Measurements)
    (limit : JointLimit) :
  limit_door_ m = true ->
  set_limit index limit m = Blocked /\
  get_limit index m = Blocked /\
  check_limits m = Blocked.
Proof.
  intros Hheld.
  unfold set_limit, get_limit, check_limits, call, call_void, seq,
    lock_limit_door.
  rewrite Hheld. repeat split.
Qed.

(** ** The loop of [check_limits] *)

Section CheckLimitsLoop.

Variable m : EncoderJointModule.

Lemma check_limits_step_and (k : Measurements) (l : JointLimit) (valid : bool) :
  check_limits_step m k l valid = valid && limit_entry_ok m k l.
Proof.
  unfold limit_entry_ok, check_limits_step. cbv zeta.
  destruct (negb _); [reflexivity |].
  symmetry. apply andb_true_r.
Qed.

Lemma check_limits_fold_true (lims : gmap Measurements JointLimit) :
  map_fold (check_limits_step m) true lims = true <->
  map_Forall (fun k l => limit_entry_ok m k l = true) lims.
Proof.
  apply (map_fold_weak_ind
           (fun valid lims =>
              valid = true <->
              map_Forall (fun k l => limit_entry_ok m k l = true) lims)).
  - split; [intros _; apply map_Forall_empty | reflexivity].
  - intros k l lims' valid Hfresh IH.
    rewrite check_limits_step_and, andb_true_iff, IH.
    rewrite map_Forall_insert by exact Hfresh. tauto.
Qed.

Lemma check_limits_loop_true :
  check_limits_loop m = true <->
  forall k l, limits_ m !! k = Some l -> limit_entry_ok m k l = true.
Proof. apply check_limits_fold_true. Qed.

(** On position, velocity and acceleration an entry passes exactly when it
    is the exempted NaN acceleration or its calibrated value is in range. *)
Lemma limit_entry_ok_calibrated (k : Measurements) (l : JointLimit) :
  k <> encoder_index ->
  limit_entry_ok m k l = true <->
  (~ (k = acceleration /\ isnan (calibrated_measurement m k) = true) ->
   in_range (calibrated_measurement m k) (min l) (max l) = true).
Proof.
  intros Hk. unfold limit_entry_ok, check_limits_step. cbv zeta.
  replace (check_limits_measurement m k) with (calibrated_measurement m k)
    by (destruct k; [reflexivity .. | congruence]).
  destruct (isnan (calibrated_measurement m k)) eqn:Hnan;
    case_bool_decide as Hacc; cbn [andb negb].
  - split; [intros _ Hex; exfalso; apply Hex; split; [assumption | reflexivity]
           | reflexivity].
  - split; [intros H _; exact H | intros H; apply H; intros [? _]; contradiction].
  - split; [intros H _; exact H
           | intros H; apply H; intros [_ ?]; discriminate].
  - split; [intros H _; exact H | intros H; apply H; intros [? _]; contradiction].
Qed.

(** The [default] branch: an entry for [encoder_index] compares 0. *)
Lemma limit_entry_ok_encoder_index (l : JointLimit) :
  limit_entry_ok m encoder_index l = in_range PrimFloat.zero (min l) (max l).
Proof. reflexivity. Qed.

End CheckLimitsLoop.

(** ** [check_limits] *)

(** C10. With an empty limit table [check_limits] returns [true], whatever
    the measurement histories and the calibration are. *)
Theorem check_limits_empty_table (m : EncoderJointModule) :
  limit_door_ m = false ->
  limits_ m = ∅ ->
  check_limits m = Returned true m.
Proof.
  intros Hfree Hempty. rewrite (check_limits_returns m Hfree).
  unfold check_limits_loop. rewrite Hempty, map_fold_empty. reflexivity.
Qed.

Lemma check_limits_empty_table_witness :
  check_limits fresh_hip = Returned true fresh_hip.
Proof.
  apply (check_limits_empty_table fresh_hip); reflexivity.
Defined.

(** C1. On a table with limits for position, velocity and acceleration
    only, [check_limits] returns [true] exactly when every configured limit,
    other than an acceleration limit whose measurement is NaN, has
    [min <= value] and [value < max] for the calibrated value of its
    channel, both comparisons being the ones of [double]: [min] is
    inclusive, [max] exclusive. A limit with [max == min == value] makes
    the result [false], a reading below [min] or not below [max] makes it
    [false], and a NaN acceleration next to limits that all hold leaves the
    result [true]. *)
Theorem check_limits_half_open (m : EncoderJointModule) :
  limit_door_ m = false ->
  (forall k, is_Some (limits_ m !! k) -> k <> encoder_index) ->
  exists valid : bool,
    check_limits m = Returned valid m /\
    (valid = true <->
     forall k l, limits_ m !! k = Some l ->
       ~ (k = acceleration /\ isnan (calibrated_measurement m k) = true) ->
       PrimFloat.leb (min l) (calibrated_measurement m k) = true /\
       PrimFloat.ltb (calibrated_measurement m k) (max l) = true) /\
    (forall k l, limits_ m !! k = Some l ->
       PrimFloat.eqb (max l) (min l) = true ->
       PrimFloat.eqb (min l) (calibrated_measurement m k) = true ->
       valid = false) /\
    (forall k l, limits_ m !! k = Some l ->
       isnan (calibrated_measurement m k) = false ->
       PrimFloat.leb (min l) (calibrated_measurement m k) = false \/
       PrimFloat.ltb (calibrated_measurement m k) (max l) = false ->
       valid = false) /\
    (isnan (get_measured_acceleration m) = true ->
     (forall k l, limits_ m !! k = Some l -> k <> acceleration ->
        PrimFloat.leb (min l) (calibrated_measurement m k) = true /\
        PrimFloat.ltb (calibrated_measurement m k) (max l) = true) ->
     valid = true).
Proof.
  intros Hfree Hkinds.
  assert (Hiff : check_limits_loop m = true <->
     forall k l, limits_ m !! k = Some l ->
       ~ (k = acceleration /\ isnan (calibrated_measurement m k) = true) ->
       PrimFloat.leb (min l) (calibrated_measurement m k) = true /\
       PrimFloat.ltb (calibrated_measurement m k) (max l) = true).
  { rewrite check_limits_loop_true. split; intros H k l Hl.
    - intros Hex. apply andb_true_iff.
      apply (limit_entry_ok_calibrated m k l); eauto.
    - apply limit_entry_ok_calibrated; [eauto |].
      intros Hex. apply andb_true_iff. exact (H k l Hl Hex). }
  exists (check_limits_loop m). split; [| split; [| split; [| split]]].
  - apply check_limits_returns, Hfree.
  - exact Hiff.
  - intros k l Hl Hmm Hmv.
    apply not_true_is_false. intros Hvalid.
    destruct (proj1 Hiff Hvalid k l Hl) as [_ Hlt].
    + intros [_ Hnan]. rewrite (isnan_false_of_eqb _ _ Hmv) in Hnan.
      discriminate.
    + rewrite (ltb_false_of_eqb _ _ _ Hmm Hmv) in Hlt. discriminate.
  - intros k l Hl Hnum Hout.
    apply not_true_is_false. intros Hvalid.
    destruct (proj1 Hiff Hvalid k l Hl) as [Hle Hlt].
    + intros [_ Hnan]. congruence.
    + destruct Hout; congruence.
  - intros Hnan Hothers. apply Hiff. intros k l Hl Hex.
    apply Hothers; [exact Hl |].
    intros ->. apply Hex. split; [reflexivity | exact Hnan].
Qed.

(** On [fresh_hip], whose position reads 0.5: the limits position [0, 1)
    and acceleration [0, 1) (no acceleration data) pass; a position limit
    [0.5, 1) passes, the minimum being inclusive; a position limit
    [0.75, 1) fails, the reading lying below the minimum; and a position
    limit [0, 0.5) fails, the maximum being exclusive. *)
Lemma check_limits_half_open_witness :
  check_limits limited_hip = Returned true limited_hip /\
  check_limits
    (with_limits (<[position := MkJointLimit 0.5 1]> ∅) fresh_hip) =
  Returned true
    (with_limits (<[position := MkJointLimit 0.5 1]> ∅) fresh_hip) /\
  check_limits
    (with_limits (<[position := MkJointLimit 0.75 1]> ∅) fresh_hip) =
  Returned false
    (with_limits (<[position := MkJointLimit 0.75 1]> ∅) fresh_hip) /\
  check_limits
    (with_limits (<[position := MkJointLimit 0 0.5]> ∅) fresh_hip) =
  Returned false
    (with_limits (<[position := MkJointLimit 0 0.5]> ∅) fresh_hip).
Proof.
  assert (Hkinds : forall lims : gmap Measurements JointLimit,
            lims !! encoder_index = None ->
            forall k, is_Some (limits_ (with_limits lims fresh_hip) !! k) ->
                      k <> encoder_index).
  { intros lims Hnone k [l Hl] ->. cbn [limits_ with_limits] in Hl.
    congruence. }
  assert (Hposition : forall l : JointLimit,
            (<[position := l]> ∅ : gmap Measurements JointLimit)
              !! encoder_index = None).
  { intros l. apply lookup_insert_None. split; [apply lookup_empty |].
    discriminate. }
  split; [| split; [| split]].
  - destruct (check_limits_half_open limited_hip eq_refl
                (Hkinds (limits_ limited_hip) ltac:(vm_compute; reflexivity)))
      as (valid & Hret & _ & _ & _ & Hnan).
    rewrite Hret. f_equal. apply Hnan.
    + vm_compute. reflexivity.
    + intros k l Hl Hk.
      destruct k; vm_compute in Hl; try discriminate; try congruence.
      injection Hl as <-. split; vm_compute; reflexivity.
  - destruct (check_limits_half_open
                (with_limits (<[position := MkJointLimit 0.5 1]> ∅) fresh_hip)
                eq_refl (Hkinds _ (Hposition (MkJointLimit 0.5 1))))
      as (valid & Hret & Hiff & _).
    rewrite Hret. f_equal. apply Hiff. intros k l Hl _.
    destruct k; vm_compute in Hl; try discriminate.
    injection Hl as <-. split; vm_compute; reflexivity.
  - destruct (check_limits_half_open
                (with_limits (<[position := MkJointLimit 0.75 1]> ∅)
                   fresh_hip)
                eq_refl (Hkinds _ (Hposition (MkJointLimit 0.75 1))))
      as (valid & Hret & _ & _ & Hout & _).
    rewrite Hret. f_equal.
    apply (Hout position (MkJointLimit 0.75 1) eq_refl eq_refl).
    left. vm_compute. reflexivity.
  - destruct (check_limits_half_open
                (with_limits (<[position := MkJointLimit 0 0.5]> ∅) fresh_hip)
                eq_refl (Hkinds _ (Hposition (MkJointLimit 0 0.5))))
      as (valid & Hret & _ & _ & Hout & _).
    rewrite Hret. f_equal.
    apply (Hout position (MkJointLimit 0 0.5) eq_refl eq_refl).
    right. vm_compute. reflexivity.
Defined.

(** The boundary case on a concrete module: a position limit with
    [min = max = 0.5] on a joint that reads 0.5 fails the check. *)
Example check_limits_boundary :
  check_limits
    (with_limits (<[position := MkJointLimit 0.5 0.5]> ∅) fresh_hip) =
  Returned false
    (with_limits (<[position := MkJointLimit 0.5 0.5]> ∅) fresh_hip).
Proof. vm_compute. reflexivity. Qed.

(** C6. [check_limits] does not read the index-angle measurement: the
    [switch] has no case for [encoder_index], and a limit on it is tested
    against 0. The index angle 1.5 lies in the configured [1, 2), yet the
    check fails, because 0 does not. *)
Theorem check_limits_encoder_index_default :
  get_measured_index_angle index_limited = 1.5%float /\
  in_range (get_measured_index_angle index_limited) 1 2 = true /\
  limits_ index_limited !! encoder_index = Some (MkJointLimit 1 2) /\
  check_limits index_limited = Returned false index_limited.
Proof. repeat split; vm_compute; reflexivity. Qed.

(** For any module, the value compared for an [encoder_index] limit is the
    constant 0 of the [default] branch. *)
Lemma check_limits_only_encoder_index (m : EncoderJointModule)
    (l : JointLimit) :
  limit_door_ m = false ->
  limits_ m = {[ encoder_index := l ]} ->
  check_limits m = Returned (in_range PrimFloat.zero (min l) (max l)) m.
Proof.
  intros Hfree Hlims. rewrite (check_limits_returns m Hfree). f_equal.
  unfold check_limits_loop. rewrite Hlims.
  rewrite map_fold_singleton. reflexivity.
Qed.

(** ** [get_limit] and the mutex *)

(** C4. [get_limit] on a kind without an entry does not return the default
    limit: [limits_.at(index)] throws [std::out_of_range], and the mutex
    taken before it stays held. *)
Theorem get_limit_unset_throws (m : EncoderJointModule)
    (index : Measurements) :
  limit_door_ m = false ->
  limits_ m !! index = None ->
  get_limit index m = Threw out_of_range (with_limit_door true m).
Proof.
  intros Hfree Hunset. rewrite (get_limit_outcome m Hfree), Hunset.
  reflexivity.
Qed.

(** On a freshly constructed module, whose table is empty, the velocity
    limit is such a kind. *)
Lemma get_limit_unset_throws_witness :
  get_limit velocity fresh_hip =
    Threw out_of_range (with_limit_door true fresh_hip).
Proof.
  apply (get_limit_unset_throws fresh_hip velocity); reflexivity.
Defined.

Lemma get_limit_set (m : EncoderJointModule) (index : Measurements)
    (l : JointLimit) :
  limit_door_ m = false ->
  limits_ m !! index = Some l ->
  get_limit index m = Returned l (with_limit_door true m).
Proof.
  intros Hfree Hset. rewrite (get_limit_outcome m Hfree), Hset.
  reflexivity.
Qed.

(** C7. Entered with the mutex free, [set_limit] and [check_limits] return
    with the mutex free again. [get_limit] does not: its [unlock()] stands
    after the [return], so the call returns the stored limit (or throws)
    with the mutex still held, and the next limit operation on the module
    blocks in [lock()]. *)
Theorem limit_door_after_call (m : EncoderJointModule)
    (index : Measurements) (limit : JointLimit) :
  limit_door_ m = false ->
  (exists m', set_limit index limit m = Returned tt m' /\
              limit_door_ m' = false) /\
  (exists valid m', check_limits m = Returned valid m' /\
                    limit_door_ m' = false) /\
  (exists m', (get_limit index m = Threw out_of_range m' \/
               exists l, get_limit index m = Returned l m') /\
              limit_door_ m' = true /\
              check_limits m' = Blocked).
Proof.
  intros Hfree. split; [| split].
  - eexists. split; [apply set_limit_returns, Hfree | exact Hfree].
  - do 2 eexists. split; [apply check_limits_returns, Hfree | exact Hfree].
  - exists (with_limit_door true m). split; [| split].
    + rewrite (get_limit_outcome m Hfree).
      destruct (limits_ m !! index) as [l |]; [right; exists l |left];
        reflexivity.
    + reflexivity.
    + apply (limit_calls_block (with_limit_door true m) index limit).
      reflexivity.
Qed.

Lemma limit_door_after_call_witness :
  exists m',
    get_limit position limited_hip = Returned (MkJointLimit 0 1) m' /\
    limit_door_ m' = true /\
    check_limits m' = Blocked.
Proof.
  destruct (limit_door_after_call limited_hip position JointLimit_default
              eq_refl) as (_ & _ & m' & Hget & Hheld & Hblock).
  exists m'. split; [| split; assumption].
  destruct Hget as [Hthrow | [l Hret]].
  - vm_compute in Hthrow. discriminate.
  - rewrite Hret. vm_compute in Hret. injection Hret as <- _. reflexivity.
Defined.

(** ** The gear ratio *)

(** C9, as stated, fails: the constructor called with gear ratio 0 yields a
    module whose gear ratio compares equal to 0, and whose position getter
    divides the raw sample 0.5 by it. *)
Lemma zero_gear_ratio_accepted :
  zero_geared =
    EncoderJointModule_new hip_joint one_position_sample 0 0 false /\
  PrimFloat.eqb (gear_ratio_ zero_geared) 0 = true /\
  get_measured_angle zero_geared = PrimFloat.infinity.
Proof. repeat split; vm_compute; reflexivity. Qed.

(** ** Batch getters *)

Section BatchGetters.

Variable this : Monopod.
Variable getJointData : Z -> double.

(** The test [getJointDataSerialized] applies to each index. *)
#[local] Abbreviation readable j :=
  (is_initialized this && Contains (read_joint_indexing this) j).

Lemma getJointDataSerialized_loop_valid (js : list Z) (data : list double) :
  (forall j, In j js -> readable j = true) ->
  getJointDataSerialized_loop this getJointData js data =
    Some (data ++ map getJointData js).
Proof.
  revert data. induction js as [| j js IH]; intros data Hall; cbn.
  - rewrite app_nil_r. reflexivity.
  - rewrite (Hall j (or_introl eq_refl)).
    rewrite IH by (intros j' Hj'; apply Hall; right; exact Hj').
    rewrite <- app_assoc. reflexivity.
Qed.

Lemma getJointDataSerialized_loop_invalid (js : list Z) (data : list double)
    (j : Z) :
  In j js -> readable j = false ->
  getJointDataSerialized_loop this getJointData js data = None.
Proof.
  revert data. induction js as [| j' js IH]; intros data Hin Hbad; cbn.
  - destruct Hin.
  - destruct (readable j') eqn:Hj'; [| reflexivity].
    destruct Hin as [-> | Hin]; [congruence |]. apply IH; assumption.
Qed.

(** The index list a batch getter walks: the canonical read order when the
    argument is empty. *)
#[local] Abbreviation serialization joint_indexes :=
  (index_or_default joint_indexes (read_joint_indexing this)).

(** One bad index among the requested ones empties the whole result. *)
Lemma getJointDataSerialized_invalid_index (joint_indexes : list Z) (j : Z) :
  In j (serialization joint_indexes) ->
  Contains (read_joint_indexing this) j = false ->
  getJointDataSerialized this this joint_indexes getJointData = None.
Proof.
  intros Hin Hbad. unfold getJointDataSerialized. cbv zeta.
  apply getJointDataSerialized_loop_invalid with (j := j); [exact Hin |].
  rewrite Hbad. apply andb_false_r.
Qed.

(** An uninitialized registry answers [nullopt] once there is an index to
    walk. *)
Lemma getJointDataSerialized_uninitialized (joint_indexes : list Z) :
  is_initialized this = false ->
  serialization joint_indexes <> [] ->
  getJointDataSerialized this this joint_indexes getJointData = None.
Proof.
  intros Huninit Hne. unfold getJointDataSerialized. cbv zeta.
  destruct (serialization joint_indexes) as [| j js]; [congruence |].
  cbn. rewrite Huninit. reflexivity.
Qed.

(** A valid request is answered in the order of the walked index list. *)
Lemma getJointDataSerialized_aligned (joint_indexes : list Z) :
  is_initialized this = true ->
  (forall j, In j (serialization joint_indexes) ->
             Contains (read_joint_indexing this) j = true) ->
  getJointDataSerialized this this joint_indexes getJointData =
    Some (map getJointData (serialization joint_indexes)).
Proof.
  intros Hinit Hall. unfold getJointDataSerialized. cbv zeta.
  apply (getJointDataSerialized_loop_valid (serialization joint_indexes) []).
  intros j Hj. rewrite Hinit, (Hall j Hj). reflexivity.
Qed.

(** The empty list and the canonical read order are the same request. *)
Lemma getJointDataSerialized_default_order :
  getJointDataSerialized this this [] getJointData =
  getJointDataSerialized this this (read_joint_indexing this) getJointData.
Proof.
  unfold getJointDataSerialized. cbv zeta.
  destruct (read_joint_indexing this); reflexivity.
Qed.

End BatchGetters.

(** C3. The test for initialization sits inside the loop of
    [getJointDataSerialized]. A registry that is not initialized and whose
    [read_joint_indexing] is still empty has nothing to walk on the default
    (empty) index list, so the batch getter returns an empty vector, not
    [nullopt]. *)
Theorem batch_getter_uninitialized_empty (getJointData : Z -> double) :
  is_initialized unstarted = false /\
  read_joint_indexing unstarted = [] /\
  getJointDataSerialized unstarted unstarted [] getJointData = Some [].
Proof. repeat split. Qed.

(** ** Torque commands *)

(** C8. When the registry is not initialized, or an addressed index is not
    controllable, [set_torque_target] and [set_torque_targets] return
    [false] and leave the registry, every command slot included, as it
    was. *)
Theorem torque_targets_all_or_nothing (this : Monopod) :
  (forall torque_target joint_index,
     is_initialized this = false \/
     Contains (write_joint_indexing this) joint_index = false ->
     set_torque_target torque_target joint_index this = (false, this)) /\
  (forall torque_targets joint_indexes,
     is_initialized this = false \/
     (exists j,
        In j (index_or_default joint_indexes (write_joint_indexing this)) /\
        Contains (write_joint_indexing this) j = false) ->
     set_torque_targets torque_targets joint_indexes this = (false, this)).
Proof.
  split.
  - intros v j [Huninit | Hbad]; unfold set_torque_target.
    + rewrite Huninit. reflexivity.
    + rewrite Hbad, andb_false_r. reflexivity.
  - intros vs js H. unfold set_torque_targets. cbv zeta.
    set (walk := index_or_default js (write_joint_indexing this)) in *.
    destruct H as [Huninit | (j & Hin & Hbad)].
    + rewrite Huninit. reflexivity.
    + replace (forallb (Contains (write_joint_indexing this)) walk)
        with false; [rewrite andb_false_r; reflexivity |].
      symmetry. apply not_true_is_false. intros Hall.
      rewrite forallb_forall in Hall. rewrite (Hall j Hin) in Hbad.
      discriminate.
Qed.

Lemma torque_targets_all_or_nothing_witness :
  set_torque_target 1 1 two_joints = (false, two_joints) /\
  set_torque_targets [1%float; 1%float] [0; 1] two_joints =
    (false, two_joints).
Proof.
  destruct (torque_targets_all_or_nothing two_joints) as [Hone Hbatch].
  split.
  - apply Hone. right. reflexivity.
  - apply Hbatch. right. exists 1. split; [right; left |]; reflexivity.
Defined.

(** A batch that passes the validation writes every addressed slot. *)
Example torque_targets_valid_batch :
  set_torque_targets [2%float] [] two_joints =
    (true, MkMonopod ∅ (<[0 := MkMotorJointModule 2]> ∅) true [0] [0; 1]).
Proof. vm_compute. reflexivity. Qed.

(** * Further properties of the code *)

(** ** [Contains] *)

Lemma Contains_In (Vec : list Z) (Element : Z) :
  Contains Vec Element = true <-> In Element Vec.
Proof.
  induction Vec as [| x rest IH]; cbn.
  - split; [discriminate | tauto].
  - destruct (Z.eqb_spec x Element) as [-> | Hne].
    + split; [intros _; left; reflexivity | reflexivity].
    + rewrite IH. split; [tauto | intros [? | ?]; [contradiction | assumption]].
Qed.

(** X1. [Contains] is membership: it answers [true] exactly for the elements of
    the vector, wherever and however often they occur, and [false] on the
    empty vector. *)
Theorem Contains_membership (Vec : list Z) (Element : Z) :
  (Contains Vec Element = true <-> In Element Vec) /\
  (Contains Vec Element = false <-> ~ In Element Vec) /\
  Contains [] Element = false /\
  (forall front, Contains (front ++ Element :: Vec) Element = true) /\
  (forall Vec', Contains (Vec ++ Vec') Element =
                Contains Vec Element || Contains Vec' Element).
Proof.
  split; [apply Contains_In |]. split; [| split; [reflexivity | split]].
  - rewrite <- Contains_In. destruct (Contains Vec Element); split;
      congruence.
  - intros front. apply Contains_In, in_or_app. right. left. reflexivity.
  - intros Vec'. induction Vec as [| x rest IH]; cbn; [reflexivity |].
    destruct (x =? Element); [reflexivity | exact IH].
Qed.

(** ** [getJointDataSerialized] *)

(** X2. The batch getter has two outcomes. It answers the data of the walked
    index list, in that order, when the list is empty or the registry is
    initialized and every walked index is readable; otherwise it answers
    [nullopt]. *)
Theorem getJointDataSerialized_outcomes (this : Monopod)
    (joint_indexes : list Z) (getJointData : Z -> double) :
  let walk := index_or_default joint_indexes (read_joint_indexing this) in
  (getJointDataSerialized this this joint_indexes getJointData =
     Some (map getJointData walk) /\
   (walk = [] \/
    (is_initialized this = true /\
     forall j, In j walk -> In j (read_joint_indexing this)))) \/
  (getJointDataSerialized this this joint_indexes getJointData = None /\
   walk <> [] /\
   (is_initialized this = false \/
    exists j, In j walk /\ ~ In j (read_joint_indexing this))).
Proof.
  cbv zeta. unfold getJointDataSerialized. cbv zeta.
  set (walk := index_or_default joint_indexes (read_joint_indexing this)).
  destruct walk as [| j0 walk'] eqn:Hwalk.
  { left. split; [reflexivity | left; reflexivity]. }
  rewrite <- Hwalk. clearbody walk.
  destruct (is_initialized this) eqn:Hinit.
  - destruct (forallb (Contains (read_joint_indexing this)) walk) eqn:Hall.
    + left. rewrite forallb_forall in Hall. split.
      * apply (getJointDataSerialized_loop_valid this getJointData walk []).
        intros j Hj. rewrite Hinit, (Hall j Hj). reflexivity.
      * right. split; [reflexivity |].
        intros j Hj. apply Contains_In, Hall, Hj.
    + right.
      assert (Hex : exists j, In j walk /\
                Contains (read_joint_indexing this) j = false).
      { clear Hwalk. induction walk as [| j js IH]; cbn in Hall;
          [discriminate |].
        destruct (Contains (read_joint_indexing this) j) eqn:Hj.
        - destruct (IH Hall) as (j' & Hin & Hbad).
          exists j'. split; [right; exact Hin | exact Hbad].
        - exists j. split; [left; reflexivity | exact Hj]. }
      destruct Hex as (j & Hin & Hbad). split; [| split].
      * apply (getJointDataSerialized_loop_invalid this getJointData walk []
                 j Hin).
        rewrite Hbad. apply andb_false_r.
      * rewrite Hwalk. discriminate.
      * right. exists j. split; [exact Hin |].
        rewrite <- Contains_In, Hbad. discriminate.
  - right. split; [| split].
    + rewrite Hwalk. cbn. rewrite Hinit. reflexivity.
    + rewrite Hwalk. discriminate.
    + left. reflexivity.
Qed.

(** X3. On an initialized registry the default request (no index list) always
    succeeds and lists every readable joint in canonical order, and so does
    any request made of readable indexes only; the answer has one value per
    walked index. *)
Theorem getJointDataSerialized_default_succeeds (this : Monopod)
    (getJointData : Z -> double) :
  is_initialized this = true ->
  getJointDataSerialized this this [] getJointData =
    Some (map getJointData (read_joint_indexing this)) /\
  (forall joint_indexes data,
     getJointDataSerialized this this joint_indexes getJointData =
       Some data ->
     List.length data =
       List.length
         (index_or_default joint_indexes (read_joint_indexing this))).
Proof.
  intros Hinit. split.
  - unfold getJointDataSerialized. cbv zeta. cbn [index_or_default].
    apply (getJointDataSerialized_loop_valid this getJointData
             (read_joint_indexing this) []).
    intros j Hj. rewrite Hinit. cbn. apply Contains_In, Hj.
  - intros joint_indexes data. unfold getJointDataSerialized. cbv zeta.
    set (walk := index_or_default joint_indexes (read_joint_indexing this)).
    clearbody walk.
    enough (Hgen : forall acc,
              getJointDataSerialized_loop this getJointData walk acc =
                Some data ->
              List.length data = (List.length acc + List.length walk)%nat)
      by (intros H; apply (Hgen [] H)).
    induction walk as [| j js IH]; intros acc; cbn.
    + intros [= <-]. rewrite Nat.add_0_r. reflexivity.
    + destruct (is_initialized this &&
                Contains (read_joint_indexing this) j); [| discriminate].
      intros H. rewrite (IH _ H), length_app. cbn. lia.
Qed.

Lemma getJointDataSerialized_default_succeeds_witness :
  getJointDataSerialized two_joints two_joints []
    (fun j => if j =? 0 then 0.5%float else 1.5%float) =
  Some [0.5%float; 1.5%float].
Proof.
  refine (eq_trans
            (proj1 (getJointDataSerialized_default_succeeds two_joints _ _)) _);
    reflexivity.
Defined.

(** ** The limit table *)

Lemma SFcompare_nan_r (x : spec_float) : SFcompare x S754_nan = None.
Proof. destruct x; reflexivity. Qed.

(** NaN is in no range, whether it is the value or a bound. *)
Lemma in_range_nan (a b : double) :
  in_range quiet_NaN a b = false /\
  in_range a quiet_NaN b = false /\
  in_range a b quiet_NaN = false.
Proof.
  unfold in_range. rewrite !leb_spec, !ltb_spec. unfold SFleb, SFltb.
  change (Prim2SF quiet_NaN) with S754_nan.
  rewrite !SFcompare_nan_r. cbn [SFcompare].
  repeat split; try reflexivity. apply andb_false_r.
Qed.

Section LimitTable.

Variable m : EncoderJointModule.
Hypothesis door_free : limit_door_ m = false.

(** The getters read the encoder and the calibration only. *)
Lemma calibrated_measurement_with_limits
    (lims : gmap Measurements JointLimit) (k : Measurements) :
  calibrated_measurement (with_limits lims m) k = calibrated_measurement m k.
Proof. destruct k; reflexivity. Qed.

Lemma limit_entry_ok_with_limits (lims : gmap Measurements JointLimit)
    (k : Measurements) (l : JointLimit) :
  limit_entry_ok (with_limits lims m) k l = limit_entry_ok m k l.
Proof. destruct k; reflexivity. Qed.

Lemma get_limit_returns_iff (index : Measurements) (l : JointLimit) :
  (exists m', get_limit index m = Returned l m') <->
  limits_ m !! index = Some l.
Proof.
  rewrite (get_limit_outcome m door_free).
  destruct (limits_ m !! index) as [l' |]; split.
  - intros [m' [= ->]]. reflexivity.
  - intros [= ->]. eauto.
  - intros [m' H]. discriminate.
  - discriminate.
Qed.

End LimitTable.

(** X4. What [set_limit] stores, [get_limit] returns: after [set_limit(k, l)]
    the mutex is free again, [get_limit(k)] returns [l], the limits of the
    other kinds read as before, and every calibrated getter reads as
    before. *)
Theorem set_limit_then_get_limit (m : EncoderJointModule)
    (k : Measurements) (l : JointLimit) :
  limit_door_ m = false ->
  exists m',
    set_limit k l m = Returned tt m' /\
    limit_door_ m' = false /\
    (exists m'', get_limit k m' = Returned l m'') /\
    (forall k' l', k' <> k ->
       (exists m'', get_limit k' m' = Returned l' m'') <->
       (exists m'', get_limit k' m = Returned l' m'')) /\
    (forall k', calibrated_measurement m' k' = calibrated_measurement m k') /\
    (forall k', get_joint_measurement_index m' k' =
                get_joint_measurement_index m k').
Proof.
  intros Hfree.
  exists (with_limits (<[k := l]> (limits_ m)) m).
  assert (Hfree' : limit_door_ (with_limits (<[k := l]> (limits_ m)) m)
                   = false) by exact Hfree.
  split; [apply set_limit_returns, Hfree |].
  split; [exact Hfree' |]. split; [| split; [| split]].
  - apply (get_limit_returns_iff _ Hfree'). apply lookup_insert_eq.
  - intros k' l' Hne.
    rewrite (get_limit_returns_iff _ Hfree'), (get_limit_returns_iff _ Hfree).
    cbn [limits_ with_limits]. rewrite lookup_insert_ne by congruence.
    reflexivity.
  - intros k'. apply calibrated_measurement_with_limits.
  - reflexivity.
Qed.

Lemma set_limit_then_get_limit_witness :
  exists m',
    set_limit velocity (MkJointLimit (-2) 2) limited_hip = Returned tt m' /\
    (exists m'', get_limit velocity m' = Returned (MkJointLimit (-2) 2) m'').
Proof.
  destruct (set_limit_then_get_limit limited_hip velocity
              (MkJointLimit (-2) 2) eq_refl)
    as (m' & Hset & _ & Hget & _).
  exists m'. split; assumption.
Defined.

(** X5. [set_limit] overwrites: on one kind the last call wins, and calls on
    different kinds can be made in either order. *)
Theorem set_limit_last_write_wins (m : EncoderJointModule)
    (k1 k2 : Measurements) (l1 l2 : JointLimit) :
  limit_door_ m = false ->
  exists m1 m2 m12,
    set_limit k1 l1 m = Returned tt m1 /\
    set_limit k2 l2 m = Returned tt m2 /\
    set_limit k2 l2 m1 = Returned tt m12 /\
    (k1 = k2 -> m12 = m2) /\
    (k1 <> k2 -> set_limit k1 l1 m2 = Returned tt m12).
Proof.
  intros Hfree.
  exists (with_limits (<[k1 := l1]> (limits_ m)) m),
         (with_limits (<[k2 := l2]> (limits_ m)) m),
         (with_limits (<[k2 := l2]> (<[k1 := l1]> (limits_ m))) m).
  split; [apply set_limit_returns, Hfree |].
  split; [apply set_limit_returns, Hfree |].
  split; [apply (set_limit_returns (with_limits _ m)), Hfree |].
  split.
  - intros ->. rewrite insert_insert_eq. reflexivity.
  - intros Hne.
    rewrite (set_limit_returns (with_limits (<[k2 := l2]> (limits_ m)) m))
      by exact Hfree.
    cbn [limits_ with_limits].
    rewrite (insert_insert_ne (limits_ m) k1 k2) by exact Hne.
    reflexivity.
Qed.

Lemma set_limit_last_write_wins_witness :
  exists m1 m2,
    set_limit position (MkJointLimit 0 1) fresh_hip = Returned tt m1 /\
    set_limit position (MkJointLimit 2 3) m1 = Returned tt m2 /\
    set_limit position (MkJointLimit 2 3) fresh_hip = Returned tt m2.
Proof.
  destruct (set_limit_last_write_wins fresh_hip position position
              (MkJointLimit 0 1) (MkJointLimit 2 3) eq_refl)
    as (m1 & m2 & m12 & H1 & H2 & H12 & Hsame & _).
  exists m1, m2. rewrite <- (Hsame eq_refl) at 1. repeat split; assumption.
Defined.

(** ** [check_limits] on any table *)

(** Outside acceleration an entry passes exactly when the value the
    [switch] picked is in range. *)
Lemma limit_entry_ok_not_acceleration (m : EncoderJointModule)
    (k : Measurements) (l : JointLimit) :
  k <> acceleration ->
  limit_entry_ok m k l =
    in_range (check_limits_measurement m k) (min l) (max l).
Proof.
  intros Hk. unfold limit_entry_ok, check_limits_step. cbv zeta.
  rewrite (bool_decide_eq_false_2 _ Hk), andb_false_r. reflexivity.
Qed.



(** The loop over a table in which [k] has just been set to [l]. *)
Lemma check_limits_loop_set (m : EncoderJointModule) (k : Measurements)
    (l : JointLimit) :
  check_limits_loop (with_limits (<[k := l]> (limits_ m)) m) = true <->
  limit_entry_ok m k l = true /\
  forall k' l', k' <> k -> limits_ m !! k' = Some l' ->
                limit_entry_ok m k' l' = true.
Proof.
  rewrite check_limits_loop_true. cbn [limits_ with_limits].
  split.
  - intros H. split.
    + rewrite <- (limit_entry_ok_with_limits m (<[k := l]> (limits_ m))).
      apply H, lookup_insert_eq.
    + intros k' l' Hne Hl'.
      rewrite <- (limit_entry_ok_with_limits m (<[k := l]> (limits_ m))).
      apply H. rewrite lookup_insert_ne by congruence. exact Hl'.
  - intros [Hk Hrest] k' l' Hl'. rewrite limit_entry_ok_with_limits.
    destruct (decide (k = k')) as [<- | Hne].
    + rewrite lookup_insert_eq in Hl'. injection Hl' as <-. exact Hk.
    + rewrite lookup_insert_ne in Hl' by exact Hne.
      apply Hrest; [congruence | exact Hl'].
Qed.

(** X7. A limit set and then checked: after [set_limit(k, l)], [check_limits]
    passes exactly when the new entry passes and so does every entry of the
    other kinds that was there before. Setting a limit on a kind that had
    none can therefore only turn a passing check into a failing one. *)
Theorem check_limits_after_set_limit (m : EncoderJointModule)
    (k : Measurements) (l : JointLimit) :
  limit_door_ m = false ->
  exists m' before after,
    set_limit k l m = Returned tt m' /\
    check_limits m = Returned before m /\
    check_limits m' = Returned after m' /\
    (after = true <->
     limit_entry_ok m k l = true /\
     forall k' l', k' <> k -> limits_ m !! k' = Some l' ->
                   limit_entry_ok m k' l' = true) /\
    (limits_ m !! k = None -> after = before && limit_entry_ok m k l).
Proof.
  intros Hfree.
  set (m' := with_limits (<[k := l]> (limits_ m)) m).
  assert (Hfree' : limit_door_ m' = false) by exact Hfree.
  exists m', (check_limits_loop m), (check_limits_loop m').
  split; [apply set_limit_returns, Hfree |].
  split; [apply check_limits_returns, Hfree |].
  split; [apply check_limits_returns, Hfree' |].
  pose proof (check_limits_loop_set m k l) as Hafter. fold m' in Hafter.
  split; [exact Hafter |].
  intros Hnew. apply eq_true_iff_eq.
  rewrite Hafter, andb_true_iff, check_limits_loop_true.
  split.
  - intros [Hk Hrest]. split; [| exact Hk].
    intros k' l' Hl'. apply Hrest; [| exact Hl']. congruence.
  - intros [Hall Hk]. split; [exact Hk |].
    intros k' l' _ Hl'. exact (Hall k' l' Hl').
Qed.

Lemma check_limits_after_set_limit_witness :
  exists m',
    set_limit velocity (MkJointLimit 0 1) limited_hip = Returned tt m' /\
    check_limits limited_hip = Returned true limited_hip /\
    check_limits m' = Returned false m'.
Proof.
  destruct (check_limits_after_set_limit limited_hip velocity
              (MkJointLimit 0 1) eq_refl)
    as (m' & before & after & Hset & Hbefore & Hafter & _ & Hnew).
  exists m'. split; [exact Hset |].
  assert (Hb : before = true).
  { vm_compute in Hbefore. injection Hbefore as <-. reflexivity. }
  split.
  - rewrite Hbefore, Hb. reflexivity.
  - rewrite Hafter. f_equal. rewrite (Hnew eq_refl), Hb.
    vm_compute. reflexivity.
Defined.

(** X8. Only acceleration is excused for missing data: with a position or
    velocity limit configured and no sample yet on that channel, the reading
    is NaN and [check_limits] fails, whatever the bounds. *)
Theorem check_limits_fails_without_data (m : EncoderJointModule)
    (k : Measurements) (l : JointLimit) :
  limit_door_ m = false ->
  k = position \/ k = velocity ->
  limits_ m !! k = Some l ->
  TimeSeries.length (encoder_ m k) = 0 ->
  check_limits m = Returned false m.
Proof.
  intros Hfree Hk Hl Hempty.
  rewrite (check_limits_returns m Hfree). f_equal.
  apply not_true_is_false. intros Hvalid.
  rewrite check_limits_loop_true in Hvalid. specialize (Hvalid k l Hl).
  pose proof (calibrated_measurement_empty m k Hempty) as Hnan.
  rewrite limit_entry_ok_not_acceleration in Hvalid
    by (destruct Hk as [-> | ->]; discriminate).
  destruct Hk as [-> | ->]; cbn [check_limits_measurement] in Hvalid;
    cbn [calibrated_measurement] in Hnan; rewrite Hnan in Hvalid;
    rewrite (proj1 (in_range_nan (min l) (max l))) in Hvalid;
    discriminate.
Qed.

Lemma check_limits_fails_without_data_witness :
  check_limits
    (with_limits (<[velocity := JointLimit_default]> ∅) fresh_hip) =
  Returned false
    (with_limits (<[velocity := JointLimit_default]> ∅) fresh_hip).
Proof.
  apply (check_limits_fails_without_data _ velocity JointLimit_default);
    [reflexivity | right; reflexivity | reflexivity | reflexivity].
Defined.

(** ** The order of doubles *)

Ltac fold_pos_compare :=
  repeat match goal with
  | |- context [PosDef.Pos.compare_cont Eq ?a ?b] =>
      change (PosDef.Pos.compare_cont Eq a b) with (Pos.compare a b)
  end.

Ltac case_compares :=
  repeat match goal with
  | H : context [Z.compare ?a ?b] |- _ =>
      destruct (Z.compare_spec a b); cbn in H
  | H : context [Pos.compare ?a ?b] |- _ =>
      destruct (Pos.compare_spec a b); cbn in H
  | |- context [Z.compare ?a ?b] =>
      destruct (Z.compare_spec a b); cbn
  | |- context [Pos.compare ?a ?b] =>
      destruct (Pos.compare_spec a b); cbn
  end.

Ltac close_compare :=
  try discriminate;
  try match goal with H : _ \/ _ |- _ => destruct H; discriminate end;
  try reflexivity; try (left; reflexivity); try (right; reflexivity).

(** Transitivity by cases on the three operands, their signs, exponents and
    mantissas. *)
Ltac sfcompare_trans x y z :=
  destruct x as [? | ? | | ? ? ?], y as [? | ? | | ? ? ?],
    z as [? | ? | | ? ? ?];
  cbn [SFcompare]; fold_pos_compare; intros;
  close_compare;
  repeat match goal with s : bool |- _ => destruct s end;
  close_compare;
  case_compares; close_compare; subst; try lia.

Lemma SFcompare_le_lt_trans (x y z : spec_float) :
  SFcompare x y = Some Lt \/ SFcompare x y = Some Eq ->
  SFcompare y z = Some Lt ->
  SFcompare x z = Some Lt.
Proof. sfcompare_trans x y z. Qed.

Lemma SFcompare_lt_le_trans (x y z : spec_float) :
  SFcompare x y = Some Lt ->
  SFcompare y z = Some Lt \/ SFcompare y z = Some Eq ->
  SFcompare x z = Some Lt.
Proof. sfcompare_trans x y z. Qed.

Lemma SFcompare_le_le_trans (x y z : spec_float) :
  SFcompare x y = Some Lt \/ SFcompare x y = Some Eq ->
  SFcompare y z = Some Lt \/ SFcompare y z = Some Eq ->
  SFcompare x z = Some Lt \/ SFcompare x z = Some Eq.
Proof. sfcompare_trans x y z. Qed.

Lemma ltb_compare (a b : double) :
  PrimFloat.ltb a b = true <-> SFcompare (Prim2SF a) (Prim2SF b) = Some Lt.
Proof.
  rewrite ltb_spec. unfold SFltb.
  destruct (SFcompare (Prim2SF a) (Prim2SF b)) as [[] |];
    split; congruence.
Qed.

Lemma leb_compare (a b : double) :
  PrimFloat.leb a b = true <->
  SFcompare (Prim2SF a) (Prim2SF b) = Some Lt \/
  SFcompare (Prim2SF a) (Prim2SF b) = Some Eq.
Proof.
  rewrite leb_spec. unfold SFleb.
  destruct (SFcompare (Prim2SF a) (Prim2SF b)) as [[] |];
    split; try congruence; try tauto; intros [? | ?]; congruence.
Qed.

Lemma in_range_inv (value min max : double) :
  in_range value min max = true <->
  PrimFloat.leb min value = true /\ PrimFloat.ltb value max = true.
Proof. unfold in_range. apply andb_true_iff. Qed.

(** ** [in_range] *)

(** X9. A range holds a value only if [min < max], and a value it holds stays
    held when the range is widened. In particular a limit given with its
    bounds swapped or equal, or with a NaN bound, is met by no reading. *)
Theorem in_range_ordered_and_monotone (value min max : double) :
  in_range value min max = true ->
  PrimFloat.ltb min max = true /\
  isnan value = false /\
  (forall min' max',
     PrimFloat.leb min' min = true ->
     PrimFloat.leb max max' = true ->
     in_range value min' max' = true).
Proof.
  rewrite in_range_inv, leb_compare, ltb_compare. intros [Hlo Hhi].
  split; [| split].
  - apply ltb_compare. eapply SFcompare_le_lt_trans; eassumption.
  - destruct (isnan value) eqn:Hnan; [| reflexivity].
    unfold isnan, PrimFloat.is_nan in Hnan.
    rewrite FloatAxioms.eqb_spec in Hnan. unfold SFeqb in Hnan.
    destruct (Prim2SF value) as [s | s | | s mant e];
      cbn [SFcompare] in Hnan, Hhi; try discriminate.
    + destruct s; discriminate.
    + fold (Pos.compare mant mant) in Hnan.
      rewrite Z.compare_refl, Pos.compare_refl in Hnan.
      destruct s; discriminate.
  - intros min' max'. rewrite in_range_inv, !leb_compare, ltb_compare.
    intros Hlo' Hhi'. split.
    + eapply SFcompare_le_le_trans; eassumption.
    + eapply SFcompare_lt_le_trans; eassumption.
Qed.

Lemma in_range_ordered_and_monotone_witness :
  PrimFloat.ltb 0 1 = true /\ in_range 0.5 (-1) 2 = true.
Proof.
  destruct (in_range_ordered_and_monotone 0.5 0 1 eq_refl)
    as (Hord & _ & Hwide).
  split; [exact Hord | apply Hwide; reflexivity].
Defined.

Lemma in_range_empty (value min max : double) :
  PrimFloat.ltb min max = false -> in_range value min max = false.
Proof.
  intros Hempty. apply not_true_is_false. intros Hin.
  rewrite in_range_inv, leb_compare, ltb_compare in Hin.
  destruct Hin as [Hlo Hhi].
  pose proof (SFcompare_le_lt_trans _ _ _ Hlo Hhi) as Hlt.
  apply ltb_compare in Hlt. congruence.
Qed.

Lemma in_range_widen (value min max min' max' : double) :
  in_range value min max = true ->
  PrimFloat.leb min' min = true ->
  PrimFloat.leb max max' = true ->
  in_range value min' max' = true.
Proof.
  rewrite !in_range_inv, !leb_compare, !ltb_compare.
  intros [Hlo Hhi] Hlo' Hhi'. split.
  - eapply SFcompare_le_le_trans; eassumption.
  - eapply SFcompare_lt_le_trans; eassumption.
Qed.

(** ** Limits that cannot be met, and limits that are loosened *)

(** X10. A configured limit without [min < max] (bounds swapped, equal, or NaN)
    makes [check_limits] fail on position, velocity and [encoder_index]
    whatever is measured, and on acceleration whenever there is a reading. *)
Theorem check_limits_fails_on_empty_range (m : EncoderJointModule)
    (k : Measurements) (l : JointLimit) :
  limit_door_ m = false ->
  limits_ m !! k = Some l ->
  PrimFloat.ltb (min l) (max l) = false ->
  (k = acceleration -> isnan (get_measured_acceleration m) = false) ->
  check_limits m = Returned false m.
Proof.
  intros Hfree Hl Hempty Hacc.
  rewrite (check_limits_returns m Hfree). f_equal.
  apply not_true_is_false. intros Hvalid.
  rewrite check_limits_loop_true in Hvalid. specialize (Hvalid k l Hl).
  unfold limit_entry_ok, check_limits_step in Hvalid. cbv zeta in Hvalid.
  rewrite (in_range_empty _ _ _ Hempty) in Hvalid.
  case_bool_decide as Hk.
  - subst k. cbn [check_limits_measurement] in Hvalid.
    rewrite (Hacc eq_refl) in Hvalid. discriminate.
  - rewrite andb_false_r in Hvalid. discriminate.
Qed.

Lemma check_limits_fails_on_empty_range_witness :
  check_limits
    (with_limits (<[position := MkJointLimit 1 0]> ∅) fresh_hip) =
  Returned false
    (with_limits (<[position := MkJointLimit 1 0]> ∅) fresh_hip).
Proof.
  apply (check_limits_fails_on_empty_range _ position (MkJointLimit 1 0));
    [reflexivity | reflexivity | reflexivity | discriminate].
Defined.

(** X11. Loosening a limit never breaks a passing check: when [check_limits]
    passes and the limit of kind [k] is replaced through [set_limit] by one
    with a lower or equal minimum and a higher or equal maximum,
    [check_limits] still passes. *)
Theorem check_limits_loosened_limit (m : EncoderJointModule)
    (k : Measurements) (l l' : JointLimit) :
  limit_door_ m = false ->
  limits_ m !! k = Some l ->
  PrimFloat.leb (min l') (min l) = true ->
  PrimFloat.leb (max l) (max l') = true ->
  check_limits m = Returned true m ->
  exists m',
    set_limit k l' m = Returned tt m' /\
    check_limits m' = Returned true m'.
Proof.
  intros Hfree Hl Hmin Hmax Hpass.
  rewrite (check_limits_returns m Hfree) in Hpass.
  injection Hpass as Hpass. rewrite check_limits_loop_true in Hpass.
  exists (with_limits (<[k := l']> (limits_ m)) m).
  split; [apply set_limit_returns, Hfree |].
  rewrite check_limits_returns by exact Hfree. f_equal.
  apply check_limits_loop_set. split.
  - specialize (Hpass k l Hl).
    unfold limit_entry_ok, check_limits_step in Hpass |- *.
    cbv zeta in Hpass |- *.
    destruct (negb _); [| reflexivity].
    cbn [andb] in Hpass |- *. eapply in_range_widen; eassumption.
  - intros k' l'' _ Hl''. exact (Hpass k' l'' Hl'').
Qed.

Lemma check_limits_loosened_limit_witness :
  exists m',
    set_limit position (MkJointLimit (-1) 2) limited_hip = Returned tt m' /\
    check_limits m' = Returned true m'.
Proof.
  apply (check_limits_loosened_limit limited_hip position (MkJointLimit 0 1));
    vm_compute; reflexivity.
Defined.

(** ** [sgn] *)

(** X12. On integers [sgn] is the sign: -1, 0 or 1. *)
Theorem sgn_int_sign (val : Z) :
  sgn_int val = Z.sgn val /\
  (sgn_int val = 1 <-> 0 < val) /\
  (sgn_int val = -1 <-> val < 0) /\
  (sgn_int val = 0 <-> val = 0).
Proof.
  unfold sgn_int, sgn, bool_to_int.
  destruct (Z.ltb_spec 0 val), (Z.ltb_spec val 0);
    repeat split; try lia; destruct val; cbn; lia.
Qed.

Lemma compare_zero_cases (v : double) :
  (PrimFloat.ltb PrimFloat.zero v = true /\
   PrimFloat.ltb v PrimFloat.zero = false) \/
  (PrimFloat.ltb PrimFloat.zero v = false /\
   PrimFloat.ltb v PrimFloat.zero = true) \/
  (PrimFloat.ltb PrimFloat.zero v = false /\
   PrimFloat.ltb v PrimFloat.zero = false).
Proof.
  rewrite !ltb_spec. unfold SFltb.
  change (Prim2SF PrimFloat.zero) with (S754_zero false).
  destruct (Prim2SF v) as [s | s | | s mant e]; cbn [SFcompare];
    try destruct s; tauto.
Qed.

(** X13. On doubles [sgn] is 1 exactly for the values above zero, -1 exactly for
    those below, and 0 for the rest: both zeros and NaN. Negating the
    argument negates the result. *)
Theorem sgn_double_sign (val : double) :
  (sgn_double val = 1 <-> PrimFloat.ltb PrimFloat.zero val = true) /\
  (sgn_double val = -1 <-> PrimFloat.ltb val PrimFloat.zero = true) /\
  (sgn_double val = 0 <->
     PrimFloat.ltb PrimFloat.zero val = false /\
     PrimFloat.ltb val PrimFloat.zero = false) /\
  (isnan val = true -> sgn_double val = 0) /\
  (PrimFloat.eqb val PrimFloat.zero = true -> sgn_double val = 0) /\
  sgn_double (PrimFloat.opp val) = - sgn_double val.
Proof.
  unfold sgn_double, sgn, bool_to_int.
  split; [| split; [| split; [| split; [| split]]]].
  - destruct (compare_zero_cases val) as [[-> ->] | [[-> ->] | [-> ->]]];
      split; (discriminate || reflexivity || lia).
  - destruct (compare_zero_cases val) as [[-> ->] | [[-> ->] | [-> ->]]];
      split; (discriminate || reflexivity || lia).
  - destruct (compare_zero_cases val) as [[-> ->] | [[-> ->] | [-> ->]]];
      split; try (intros [? ?]); (discriminate || reflexivity || lia || tauto).
  - unfold isnan, PrimFloat.is_nan.
    rewrite FloatAxioms.eqb_spec, !ltb_spec. unfold SFeqb, SFltb.
    change (Prim2SF PrimFloat.zero) with (S754_zero false).
    destruct (Prim2SF val) as [s | s | | s mant e]; cbn [SFcompare];
      try discriminate; try reflexivity.
    + destruct s; discriminate.
    + fold (Pos.compare mant mant).
      rewrite Z.compare_refl, Pos.compare_refl. destruct s; discriminate.
  - rewrite FloatAxioms.eqb_spec, !ltb_spec. unfold SFeqb, SFltb.
    change (Prim2SF PrimFloat.zero) with (S754_zero false).
    destruct (Prim2SF val) as [s | s | | s mant e]; cbn [SFcompare];
      try discriminate; try reflexivity; destruct s; discriminate.
  - rewrite !ltb_spec, opp_spec. unfold SFltb.
    change (Prim2SF PrimFloat.zero) with (S754_zero false).
    destruct (Prim2SF val) as [s | s | | s mant e];
      cbn [SFopp SFcompare]; try destruct s; reflexivity.
Qed.

Lemma sgn_double_sign_witness :
  sgn_double quiet_NaN = 0 /\ sgn_double (-0)%float = 0.
Proof.
  destruct (sgn_double_sign quiet_NaN) as (_ & _ & _ & Hnan & _).
  destruct (sgn_double_sign (-0)%float) as (_ & _ & _ & _ & Hzero & _).
  split; [apply Hnan | apply Hzero]; reflexivity.
Defined.

(** ** Invariants over sequences of calls *)

(** One state-changing call that comes back relates the module before and
    after: [R] holds of every such step. *)
Lemma reachable_ind_steps
    (R : EncoderJointModule -> EncoderJointModule -> Prop) :
  (forall m, R m m) ->
  (forall a b c, R a b -> R b c -> R a c) ->
  (forall m z, R m (set_zero_angle z m)) ->
  (forall m r, R m (set_joint_polarity r m)) ->
  (forall m d, R m (with_limit_door d m)) ->
  (forall m lims, limit_door_ m = false -> R m (with_limits lims m)) ->
  forall m0 m, reachable m0 m -> R m0 m.
Proof.
  intros Hrefl Htrans Hzero Hpol Hdoor Hlims m0 m Hreach.
  induction Hreach as [| m z _ IH | m r _ IH | m k l m' _ IH Hcall
                        | m k l m' _ IH Hcall | m k e m' _ IH Hcall
                        | m valid m' _ IH Hcall].
  - apply Hrefl.
  - eapply Htrans; [exact IH | apply Hzero].
  - eapply Htrans; [exact IH | apply Hpol].
  - destruct (limit_door_ m) eqn:Hd.
    + rewrite (proj1 (limit_calls_block m k l Hd)) in Hcall. discriminate.
    + rewrite (set_limit_returns m Hd) in Hcall. injection Hcall as <-.
      eapply Htrans; [exact IH | apply Hlims, Hd].
  - destruct (limit_door_ m) eqn:Hd.
    + rewrite (proj1 (proj2 (limit_calls_block m k l Hd))) in Hcall.
      discriminate.
    + rewrite (get_limit_outcome m Hd) in Hcall.
      destruct (limits_ m !! k); [| discriminate].
      injection Hcall as _ <-. eapply Htrans; [exact IH | apply Hdoor].
  - destruct (limit_door_ m) eqn:Hd.
    + rewrite (proj1 (proj2 (limit_calls_block m k JointLimit_default Hd)))
        in Hcall. discriminate.
    + rewrite (get_limit_outcome m Hd) in Hcall.
      destruct (limits_ m !! k); [discriminate |].
      injection Hcall as _ <-. eapply Htrans; [exact IH | apply Hdoor].
  - destruct (limit_door_ m) eqn:Hd.
    + rewrite (proj2 (proj2 (limit_calls_block m position JointLimit_default
                               Hd))) in Hcall. discriminate.
    + rewrite (check_limits_returns m Hd) in Hcall. injection Hcall as _ <-.
      eapply Htrans; [exact IH | apply Hrefl].
Qed.

(** X14. Whatever is called on a module after its construction, its joint, its
    encoder and its gear ratio stay the ones the constructor was given, and
    its polarity is exactly 1.0 or -1.0. *)
Theorem calibration_invariant (joint_id : JointNamesIndex)
    (encoder : EncoderInterface) (gear_ratio zero_angle : double)
    (reverse_polarity : bool) (m : EncoderJointModule) :
  reachable
    (EncoderJointModule_new joint_id encoder gear_ratio zero_angle
       reverse_polarity) m ->
  joint_id_ m = joint_id /\
  encoder_ m = encoder /\
  gear_ratio_ m = gear_ratio /\
  (polarity_ m = 1%float \/ polarity_ m = (-1)%float).
Proof.
  intros Hreach.
  set (unit_polarity := fun m : EncoderJointModule =>
         polarity_ m = 1%float \/ polarity_ m = (-1)%float).
  assert (Hstep :
    joint_id_ m = joint_id /\ encoder_ m = encoder /\
    gear_ratio_ m = gear_ratio /\
    (unit_polarity
       (EncoderJointModule_new joint_id encoder gear_ratio zero_angle
          reverse_polarity) -> unit_polarity m)).
  { revert Hreach.
    apply (reachable_ind_steps
      (fun a b =>
         joint_id_ b = joint_id_ a /\ encoder_ b = encoder_ a /\
         gear_ratio_ b = gear_ratio_ a /\
         (unit_polarity a -> unit_polarity b))).
    - intros a. repeat split. exact (fun H => H).
    - intros a b c (Hj & He & Hg & Hp) (Hj' & He' & Hg' & Hp').
      repeat split; try congruence. intros H. apply Hp', Hp, H.
    - intros a z. repeat split. exact (fun H => H).
    - intros a r. repeat split. intros _.
      destruct r; [right | left]; reflexivity.
    - intros a d. repeat split. exact (fun H => H).
    - intros a lims _. repeat split. exact (fun H => H). }
  destruct Hstep as (Hj & He & Hg & Hp).
  repeat split; try assumption.
  apply Hp. destruct reverse_polarity; [right | left]; reflexivity.
Qed.

Lemma calibration_invariant_witness :
  gear_ratio_ (set_joint_polarity true (set_zero_angle 0.2 fresh_hip)) =
    1%float /\
  polarity_ (set_joint_polarity true (set_zero_angle 0.2 fresh_hip)) =
    (-1)%float.
Proof.
  destruct (calibration_invariant hip_joint one_position_sample 1 0 false
              (set_joint_polarity true (set_zero_angle 0.2 fresh_hip)))
    as (_ & _ & Hgear & Hpol).
  - apply reach_set_joint_polarity, reach_set_zero_angle, reach_start.
  - split; [exact Hgear |].
    destruct Hpol as [Hpol | Hpol]; [vm_compute in Hpol; discriminate |].
    exact Hpol.
Defined.

(** X15. Once the mutex is held it is never released: from a state with
    [limit_door_] held, every later state has it held and the limit table
    unchanged, and [set_limit], [get_limit] and [check_limits] block. This
    is the state every [get_limit] call leaves behind. *)
Theorem held_limit_door_is_permanent (m m' : EncoderJointModule) :
  limit_door_ m = true ->
  reachable m m' ->
  limit_door_ m' = true /\
  limits_ m' = limits_ m /\
  check_limits m' = Blocked /\
  (forall k, get_limit k m' = Blocked) /\
  (forall k l, set_limit k l m' = Blocked).
Proof.
  intros Hheld Hreach.
  assert (Hinv : limit_door_ m' = true /\ limits_ m' = limits_ m).
  { induction Hreach as [| m1 z _ IH | m1 r _ IH | m1 k l m2 _ IH Hcall
                          | m1 k l m2 _ IH Hcall | m1 k e m2 _ IH Hcall
                          | m1 valid m2 _ IH Hcall].
    - split; [exact Hheld | reflexivity].
    - exact IH.
    - exact IH.
    - destruct IH as [Hd _].
      rewrite (proj1 (limit_calls_block m1 k l Hd)) in Hcall. discriminate.
    - destruct IH as [Hd _].
      rewrite (proj1 (proj2 (limit_calls_block m1 k l Hd))) in Hcall.
      discriminate.
    - destruct IH as [Hd _].
      rewrite (proj1 (proj2 (limit_calls_block m1 k JointLimit_default Hd)))
        in Hcall. discriminate.
    - destruct IH as [Hd _].
      rewrite (proj2 (proj2 (limit_calls_block m1 position
                               JointLimit_default Hd))) in Hcall.
      discriminate. }
  destruct Hinv as [Hd Hl]. split; [exact Hd |]. split; [exact Hl |].
  split; [| split].
  - apply (limit_calls_block m' position JointLimit_default Hd).
  - intros k. apply (limit_calls_block m' k JointLimit_default Hd).
  - intros k l. apply (limit_calls_block m' k l Hd).
Qed.

Lemma held_limit_door_is_permanent_witness :
  exists m1,
    get_limit position limited_hip = Returned (MkJointLimit 0 1) m1 /\
    check_limits (set_zero_angle 0.2 m1) = Blocked.
Proof.
  exists (with_limit_door true limited_hip). split; [reflexivity |].
  apply (held_limit_door_is_permanent (with_limit_door true limited_hip));
    [reflexivity | apply reach_set_zero_angle, reach_start].
Defined.

(** ** The demo controller's logs *)

Section SineLogs.

Import SinePositionControl.

Variable sin : double -> double.

(** One turn appends one entry to each of the two sequences of a log. *)
Lemma push_back_pair_shape (log : list (list double)) (n : nat)
    (x y : double) :
  List.length log = 2%nat /\ Forall (fun r => List.length r = n) log ->
  List.length (push_back_at 1 y (push_back_at 0 x log)) = 2%nat /\
  Forall (fun r => List.length r = S n)
    (push_back_at 1 y (push_back_at 0 x log)).
Proof.
  intros [Hlen Hrows].
  destruct log as [| r0 [| r1 [| r2 log]]]; try discriminate.
  apply Forall_cons in Hrows as [H0 Hrows].
  apply Forall_cons in Hrows as [H1 _].
  cbn. split; [reflexivity |].
  repeat constructor; rewrite length_app; cbn; lia.
Qed.

Lemma push_back_pair_rows (log : list (list double)) (x y : double) :
  List.length log = 2%nat ->
  row (push_back_at 1 y (push_back_at 0 x log)) 0 = row log 0 ++ [x] /\
  row (push_back_at 1 y (push_back_at 0 x log)) 1 = row log 1 ++ [y].
Proof.
  intros Hlen.
  destruct log as [| r0 [| r1 [| r2 log]]]; try discriminate.
  split; reflexivity.
Qed.

Lemma aligned_unfold (this : t) (n : nat) :
  aligned this n <->
  (List.length (encoders_ this) = 2%nat /\
   Forall (fun r => List.length r = n) (encoders_ this)) /\
  (List.length (velocities_ this) = 2%nat /\
   Forall (fun r => List.length r = n) (velocities_ this)) /\
  (List.length (torques_ this) = 2%nat /\
   Forall (fun r => List.length r = n) (torques_ this)) /\
  (List.length (control_buffer_ this) = 2%nat /\
   Forall (fun r => List.length r = n) (control_buffer_ this)).
Proof.
  unfold aligned. rewrite !Forall_cons. rewrite Forall_nil. tauto.
Qed.

Lemma loop_body_aligned (this : t) (count : Z) (data : Measurements')
    (n : nat) :
  aligned this n ->
  aligned (loop_body sin this count data).1.2 (S n).
Proof.
  rewrite !aligned_unfold. intros (He & Hv & Ht & Hc).
  cbn [loop_body fst snd encoders_ velocities_ torques_ control_buffer_].
  split; [| split; [| split]]; apply push_back_pair_shape; assumption.
Qed.

Lemma print_period :
  double_to_int (PrimFloat.div 0.2 control_period) = 200.
Proof. vm_compute. reflexivity. Qed.

Lemma loop_body_turn (this : t) (count : Z) (data : Measurements') :
  List.length (target_torques (loop_body sin this count data).1.1) = 2%nat /\
  printed (loop_body sin this count data).1.1 = (count mod 200 =? 0) /\
  (loop_body sin this count data).2 = (count + 1) mod 2 ^ 64 /\
  kp_ (loop_body sin this count data).1.2 = kp_ this /\
  kd_ (loop_body sin this count data).1.2 = kd_ this.
Proof.
  cbn [loop_body fst snd target_torques printed kp_ kd_].
  rewrite print_period. repeat split.
Qed.

Lemma loop_body_rows (this : t) (count : Z) (data : Measurements')
    (n : nat) :
  aligned this n ->
  let out := (loop_body sin this count data).1.1 in
  let this' := (loop_body sin this count data).1.2 in
  row (encoders_ this') 0 =
    row (encoders_ this) 0 ++ [data hip_joint position] /\
  row (encoders_ this') 1 =
    row (encoders_ this) 1 ++ [data knee_joint position] /\
  row (velocities_ this') 0 =
    row (velocities_ this) 0 ++ [data hip_joint velocity] /\
  row (velocities_ this') 1 =
    row (velocities_ this) 1 ++ [data knee_joint velocity] /\
  row (torques_ this') 0 =
    row (torques_ this) 0 ++ [data hip_joint torque] /\
  row (torques_ this') 1 =
    row (torques_ this) 1 ++ [data knee_joint torque] /\
  (exists h, hip_of out = Some h /\
     row (control_buffer_ this') 0 = row (control_buffer_ this) 0 ++ [h]) /\
  (exists k, knee_of out = Some k /\
     row (control_buffer_ this') 1 = row (control_buffer_ this) 1 ++ [k]).
Proof.
  rewrite aligned_unfold.
  intros ((He & _) & (Hv & _) & (Ht & _) & (Hc & _)). cbv zeta.
  cbn [loop_body fst snd encoders_ velocities_ torques_ control_buffer_
       target_torques hip_of knee_of].
  unfold hip_of, knee_of. cbn [target_torques].
  repeat split;
    try (apply push_back_pair_rows; assumption);
    eexists; (split; [reflexivity |]);
    apply push_back_pair_rows; assumption.
Qed.

(** What a run of the loop from counter [c] does to the logs. *)
Lemma loop_from_spec (inputs : list Measurements') :
  forall (this : t) (c : Z) (n : nat) outs this' c',
  aligned this n ->
  loop_from sin this c inputs = (outs, this', c') ->
  aligned this' (n + List.length inputs) /\
  List.length outs = List.length inputs /\
  c' mod 2 ^ 64 = (c + Z.of_nat (List.length inputs)) mod 2 ^ 64 /\
  kp_ this' = kp_ this /\ kd_ this' = kd_ this /\
  (forall i o, outs !! i = Some o ->
     List.length (target_torques o) = 2%nat) /\
  row (encoders_ this') 0 =
    row (encoders_ this) 0 ++ map (fun d => d hip_joint position) inputs /\
  row (encoders_ this') 1 =
    row (encoders_ this) 1 ++ map (fun d => d knee_joint position) inputs /\
  row (velocities_ this') 0 =
    row (velocities_ this) 0 ++ map (fun d => d hip_joint velocity) inputs /\
  row (velocities_ this') 1 =
    row (velocities_ this) 1 ++ map (fun d => d knee_joint velocity) inputs /\
  row (torques_ this') 0 =
    row (torques_ this) 0 ++ map (fun d => d hip_joint torque) inputs /\
  row (torques_ this') 1 =
    row (torques_ this) 1 ++ map (fun d => d knee_joint torque) inputs /\
  (exists hips knees,
     mapM hip_of outs = Some hips /\ mapM knee_of outs = Some knees /\
     row (control_buffer_ this') 0 = row (control_buffer_ this) 0 ++ hips /\
     row (control_buffer_ this') 1 = row (control_buffer_ this) 1 ++ knees).
Proof.
  induction inputs as [| data later IH];
    intros this c n outs this' c' Hal Hrun.
  - cbn in Hrun. injection Hrun as <- <- <-.
    rewrite Nat.add_0_r, Z.add_0_r, !app_nil_r. cbn [List.length map].
    split; [assumption |].
    do 4 (split; [reflexivity |]).
    split; [intros i o Hio; discriminate |].
    do 6 (split; [reflexivity |]).
    exists [], []. rewrite !app_nil_r. repeat split.
  - cbn [loop_from] in Hrun.
    pose proof (loop_body_aligned this c data n Hal) as Hal1.
    pose proof (loop_body_turn this c data) as (Hlen & Hpr & Hc1 & Hkp & Hkd).
    pose proof (loop_body_rows this c data n Hal) as Hrows.
    cbv zeta in Hrows.
    destruct (loop_body sin this c data) as [[out this1] c1].
    cbn [fst snd] in Hal1, Hlen, Hpr, Hc1, Hkp, Hkd, Hrows.
    destruct (loop_from sin this1 c1 later) as [[outs2 this2] c2] eqn:Hlater.
    injection Hrun as <- <- <-.
    destruct (IH this1 c1 (S n) outs2 this2 c2 Hal1 Hlater)
      as (Hal2 & Hlen2 & Hc2 & Hkp2 & Hkd2 & Hturns & He0 & He1 & Hv0 & Hv1
          & Ht0 & Ht1 & hips & knees & Hh & Hk & Hcb0 & Hcb1).
    destruct Hrows as (Re0 & Re1 & Rv0 & Rv1 & Rt0 & Rt1
                       & (h & Hh0 & Rc0) & (k & Hk0 & Rc1)).
    cbn [List.length map].
    split; [replace (n + S (List.length later))%nat
              with (S n + List.length later)%nat by lia; exact Hal2 |].
    split; [rewrite Hlen2; reflexivity |].
    split.
    { rewrite Hc2, Hc1, Zplus_mod_idemp_l. f_equal. lia. }
    split; [congruence |]. split; [congruence |].
    split.
    { intros [| i] o Hio; cbn in Hio.
      - injection Hio as <-. exact Hlen.
      - exact (Hturns i o Hio). }
    rewrite He0, He1, Hv0, Hv1, Ht0, Ht1, Re0, Re1, Rv0, Rv1, Rt0, Rt1.
    rewrite <- !app_assoc. cbn [app].
    repeat (split; [reflexivity |]).
    exists (h :: hips), (k :: knees).
    cbn [mapM]. rewrite Hh0, Hk0, Hh, Hk. cbn.
    rewrite Hcb0, Hcb1, Rc0, Rc1, <- !app_assoc. repeat split.
Qed.

Lemma loop_from_count_range (inputs : list Measurements') :
  forall (this : t) (c : Z) outs this' c',
  0 <= c < 2 ^ 64 ->
  loop_from sin this c inputs = (outs, this', c') ->
  0 <= c' < 2 ^ 64.
Proof.
  induction inputs as [| data later IH]; intros this c outs this' c' Hc Hrun.
  - cbn in Hrun. injection Hrun as _ _ <-. exact Hc.
  - cbn [loop_from] in Hrun.
    pose proof (loop_body_turn this c data) as (_ & _ & Hc1 & _).
    destruct (loop_body sin this c data) as [[out this1] c1].
    cbn [snd] in Hc1.
    destruct (loop_from sin this1 c1 later) as [[outs2 this2] c2] eqn:Hlater.
    injection Hrun as _ _ <-.
    apply (IH this1 c1 outs2 this2 c2); [| exact Hlater].
    subst c1. apply Z.mod_pos_bound. lia.
Qed.

Lemma aligned_assertion (this : t) (n : nat) :
  aligned this n -> stop_loop_assertion this = true.
Proof.
  rewrite aligned_unfold.
  intros ((He & He') & (Hv & Hv') & (Ht & Ht') & (Hc & Hc')).
  unfold stop_loop_assertion, row.
  destruct (encoders_ this) as [| e0 [| e1 [| ? ?]]]; try discriminate.
  destruct (velocities_ this) as [| v0 [| v1 [| ? ?]]]; try discriminate.
  destruct (torques_ this) as [| t0 [| t1 [| ? ?]]]; try discriminate.
  destruct (control_buffer_ this) as [| c0 [| c1 [| ? ?]]]; try discriminate.
  apply Forall_cons in He' as [He0 _]. apply Forall_cons in Hv' as [Hv0 _].
  apply Forall_cons in Ht' as [Ht0 _]. apply Forall_cons in Hc' as [Hc0 _].
  cbn. rewrite He0, Hv0, Ht0, Hc0, Nat.eqb_refl. reflexivity.
Qed.

Lemma dump_line_in_bounds (this : t) (n j : nat) :
  aligned this n -> (j < n)%nat ->
  exists line, dump_line this j = Some line /\ List.length line = 8%nat.
Proof.
  rewrite aligned_unfold.
  intros ((He & He') & (Hv & Hv') & (Ht & Ht') & (Hc & Hc')) Hj.
  unfold dump_line, at_.
  destruct (encoders_ this) as [| e0 [| e1 [| ? ?]]]; try discriminate.
  destruct (velocities_ this) as [| v0 [| v1 [| ? ?]]]; try discriminate.
  destruct (torques_ this) as [| t0 [| t1 [| ? ?]]]; try discriminate.
  destruct (control_buffer_ this) as [| c0 [| c1 [| ? ?]]]; try discriminate.
  repeat match goal with
         | H : Forall _ (_ :: _) |- _ => apply Forall_cons in H as [? H]
         end.
  assert (Hget : forall r : list double,
            List.length r = n -> exists x, r !! j = Some x).
  { intros r Hr. apply lookup_lt_is_Some. rewrite Hr. exact Hj. }
  destruct (Hget e0) as [xe0 Ee0]; [assumption |].
  destruct (Hget e1) as [xe1 Ee1]; [assumption |].
  destruct (Hget v0) as [xv0 Ev0]; [assumption |].
  destruct (Hget v1) as [xv1 Ev1]; [assumption |].
  destruct (Hget t0) as [xt0 Et0]; [assumption |].
  destruct (Hget t1) as [xt1 Et1]; [assumption |].
  destruct (Hget c0) as [xc0 Ec0]; [assumption |].
  destruct (Hget c1) as [xc1 Ec1]; [assumption |].
  cbn. rewrite Ee0, Ee1, Ev0, Ev1, Et0, Et1, Ec0, Ec1. cbn.
  eexists. split; reflexivity.
Qed.

(** X16. Run from aligned logs, the loop keeps them aligned: after any number of
    turns each of the eight sequences has grown by exactly that number, the
    gains are untouched, every turn has handed over one torque pair, the
    counter has advanced by the number of turns (modulo 2^64), and the
    [assert] of [stop_loop] holds. *)
Theorem loop_keeps_logs_aligned (this : t) (n : nat)
    (inputs : list Measurements') outs this' count' :
  aligned this n ->
  loop sin this inputs = (outs, this', count') ->
  aligned this' (n + List.length inputs) /\
  stop_loop_assertion this' = true /\
  List.length outs = List.length inputs /\
  Forall (fun o => List.length (target_torques o) = 2%nat) outs /\
  count' = Z.of_nat (List.length inputs) mod 2 ^ 64 /\
  kp_ this' = kp_ this /\ kd_ this' = kd_ this.
Proof.
  intros Hal Hrun. unfold loop in Hrun.
  destruct (loop_from_spec inputs this 0 n outs this' count' Hal Hrun)
    as (Hal' & Hlen & Hc & Hkp & Hkd & Hturns & _).
  assert (H0 : 0 <= 0 < 2 ^ 64) by lia.
  pose proof (loop_from_count_range inputs this 0 outs this' count' H0 Hrun)
    as Hrange.
  split; [exact Hal' |]. split; [exact (aligned_assertion _ _ Hal') |].
  split; [exact Hlen |]. split.
  - apply Forall_lookup. intros i o Hio. apply (Hturns i o Hio).
  - split; [| split; assumption].
    rewrite Z.add_0_l in Hc. rewrite <- Hc. symmetry.
    apply Z.mod_small. exact Hrange.
Qed.

(** X17. On aligned logs [stop_loop] reads only entries that exist: it writes
    one line per logged turn, each with the four values of both joints. *)
Theorem stop_loop_reads_in_bounds (this : t) (n : nat) :
  aligned this n ->
  exists lines,
    stop_loop this = Some lines /\
    List.length lines = n /\
    Forall (fun line => List.length line = 8%nat) lines.
Proof.
  intros Hal.
  assert (Hrow : List.length (row (encoders_ this) 0) = n).
  { apply aligned_unfold in Hal as ((He & He') & _). unfold row.
    destruct (encoders_ this) as [| e0 ?]; [discriminate |].
    apply Forall_cons in He' as [He0 _]. exact He0. }
  unfold stop_loop. rewrite Hrow.
  assert (Hsome : is_Some (mapM (dump_line this) (List.seq 0 n))).
  { apply mapM_is_Some, Forall_forall. intros j Hj.
    apply list_elem_of_In, in_seq in Hj.
    destruct (dump_line_in_bounds this n j Hal ltac:(lia))
      as (line & Hline & _).
    exists line. exact Hline. }
  destruct Hsome as [lines Hlines]. exists lines.
  split; [exact Hlines |].
  apply mapM_Some in Hlines.
  split.
  - rewrite <- (Forall2_length _ _ _ Hlines). apply length_seq.
  - apply Forall_lookup. intros i line Hi.
    destruct (Forall2_lookup_r _ _ _ _ _ Hlines Hi) as (j & Hj & Hline).
    apply lookup_seq in Hj as [-> Hlt].
    destruct (dump_line_in_bounds this n (0 + i) Hal Hlt) as (line' & Hl' & H8).
    congruence.
Qed.

(** X18. What the loop logs is what went through it: the position, velocity and
    torque sequences grow by the measurements delivered, in order, and the
    control sequences grow by the hip and knee torques handed to
    [set_target_torques]. *)
Theorem loop_logs_measurements_and_commands (this : t) (n : nat)
    (inputs : list Measurements') outs this' count' :
  aligned this n ->
  loop sin this inputs = (outs, this', count') ->
  row (encoders_ this') 0 =
    row (encoders_ this) 0 ++ map (fun d => d hip_joint position) inputs /\
  row (encoders_ this') 1 =
    row (encoders_ this) 1 ++ map (fun d => d knee_joint position) inputs /\
  row (velocities_ this') 0 =
    row (velocities_ this) 0 ++ map (fun d => d hip_joint velocity) inputs /\
  row (velocities_ this') 1 =
    row (velocities_ this) 1 ++ map (fun d => d knee_joint velocity) inputs /\
  row (torques_ this') 0 =
    row (torques_ this) 0 ++ map (fun d => d hip_joint torque) inputs /\
  row (torques_ this') 1 =
    row (torques_ this) 1 ++ map (fun d => d knee_joint torque) inputs /\
  (exists hips knees,
     mapM hip_of outs = Some hips /\ mapM knee_of outs = Some knees /\
     row (control_buffer_ this') 0 = row (control_buffer_ this) 0 ++ hips /\
     row (control_buffer_ this') 1 = row (control_buffer_ this) 1 ++ knees).
Proof.
  intros Hal Hrun. unfold loop in Hrun.
  apply (loop_from_spec inputs this 0 n outs this' count' Hal Hrun).
Qed.

(** X19. The status line is printed on turn 0 and then on every 200th turn:
    [(int)(0.2 / control_period)] is exactly 200. *)
Theorem loop_prints_every_200th_turn (this : t)
    (inputs : list Measurements') outs this' count' (i : nat) (o : turn) :
  loop sin this inputs = (outs, this', count') ->
  outs !! i = Some o ->
  Z.of_nat i < 2 ^ 64 ->
  printed o = (Z.of_nat i mod 200 =? 0).
Proof.
  intros Hrun Hio Hi. unfold loop in Hrun.
  revert this outs this' count' i o Hrun Hio Hi.
  enough (Hgen : forall inputs this c outs this' count' i o,
            0 <= c < 2 ^ 64 ->
            loop_from sin this c inputs = (outs, this', count') ->
            outs !! i = Some o ->
            printed o = (((c + Z.of_nat i) mod 2 ^ 64) mod 200 =? 0)).
  { intros this outs this' count' i o Hrun Hio Hi.
    assert (H0 : 0 <= 0 < 2 ^ 64) by lia.
    rewrite (Hgen inputs this 0 outs this' count' i o H0 Hrun Hio).
    rewrite Z.add_0_l, (Z.mod_small (Z.of_nat i) (2 ^ 64)) by lia.
    reflexivity. }
  clear inputs. intros inputs.
  induction inputs as [| data later IH];
    intros this c outs this' count' i o Hc Hrun Hio.
  - cbn in Hrun. injection Hrun as <- _ _. discriminate.
  - cbn [loop_from] in Hrun.
    pose proof (loop_body_turn this c data) as (_ & Hpr & Hc1 & _).
    destruct (loop_body sin this c data) as [[out this1] c1].
    cbn [fst snd] in Hpr, Hc1.
    destruct (loop_from sin this1 c1 later) as [[outs2 this2] c2] eqn:Hlater.
    injection Hrun as <- _ _.
    destruct i as [| i]; cbn in Hio.
    + injection Hio as <-.
      rewrite Hpr, Z.add_0_r, (Z.mod_small c (2 ^ 64)) by exact Hc.
      reflexivity.
    + rewrite (IH this1 c1 outs2 this2 c2 i o) ;
        [| subst c1; apply Z.mod_pos_bound; lia | exact Hlater | exact Hio].
      rewrite Hc1, Zplus_mod_idemp_l. do 3 f_equal. lia.
Qed.

End SineLogs.

Lemma resting_controller_aligned :
  SinePositionControl.aligned resting_controller 0.
Proof. repeat constructor. Qed.

Lemma loop_keeps_logs_aligned_witness :
  SinePositionControl.stop_loop_assertion
    (SinePositionControl.loop (fun x => x) resting_controller
       two_measurements).1.2 = true /\
  (SinePositionControl.loop (fun x => x) resting_controller
     two_measurements).2 = 2.
Proof.
  destruct (loop_keeps_logs_aligned (fun x => x) resting_controller 0
              two_measurements _ _ _ resting_controller_aligned eq_refl)
    as (_ & Hassert & _ & _ & Hcount & _).
  split; [exact Hassert | exact Hcount].
Defined.

Lemma stop_loop_reads_in_bounds_witness :
  exists lines,
    SinePositionControl.stop_loop
      (SinePositionControl.loop (fun x => x) resting_controller
         two_measurements).1.2 = Some lines /\
    List.length lines = 2%nat.
Proof.
  destruct (stop_loop_reads_in_bounds
              (SinePositionControl.loop (fun x => x) resting_controller
                 two_measurements).1.2 2)
    as (lines & Hdump & Hlen & _).
  - repeat constructor.
  - exists lines. split; assumption.
Defined.

Lemma loop_logs_measurements_and_commands_witness :
  SinePositionControl.row
    (SinePositionControl.encoders_
       (SinePositionControl.loop (fun x => x) resting_controller
          two_measurements).1.2) 0 = [0%float; 0.25%float].
Proof.
  exact (proj1 (loop_logs_measurements_and_commands (fun x => x)
                  resting_controller 0 two_measurements _ _ _
                  resting_controller_aligned eq_refl)).
Defined.

Lemma loop_prints_every_200th_turn_witness :
  exists o,
    (SinePositionControl.loop (fun x => x) resting_controller
       two_measurements).1.1 !! 1%nat = Some o /\
    SinePositionControl.printed o = false.
Proof.
  eexists. split; [reflexivity |].
  apply (loop_prints_every_200th_turn (fun x => x) resting_controller
           two_measurements _ _ _ 1 _ eq_refl eq_refl).
  reflexivity.
Defined.

(** ** The default limit *)

Lemma digits2_pos_bound (m : positive) :
  Z.pos m < 2 ^ Z.pos (digits2_pos m).
Proof.
  induction m as [m IH | m IH |]; cbn [digits2_pos].
  - rewrite Pos2Z.inj_succ, Z.pow_succ_r by lia. lia.
  - rewrite Pos2Z.inj_succ, Z.pow_succ_r by lia. lia.
  - reflexivity.
Qed.

(** A finite binary64 number has an exponent of at most 971 and a mantissa
    below 2^53. *)
Lemma valid_finite_bounds (s : bool) (m : positive) (e : Z) :
  valid_binary (S754_finite s m e) = true ->
  e <= 971 /\ Z.pos m <= 9007199254740991.
Proof.
  cbn [valid_binary]. unfold bounded, canonical_mantissa, fexp, emin.
  rewrite andb_true_iff, Z.eqb_eq, Z.leb_le.
  change (emax - prec) with 971. change prec with 53.
  intros [Hcanon He]. split; [exact He |].
  pose proof (digits2_pos_bound m) as Hd.
  assert (Hdig : Z.pos (digits2_pos m) <= 53) by lia.
  assert (H : Z.pos m < 2 ^ 53).
  { eapply Z.lt_le_trans; [exact Hd |]. apply Z.pow_le_mono_r; lia. }
  change (2 ^ 53) with 9007199254740992 in H. clear Hd Hcanon Hdig.
  lia.
Qed.

(** Between the negated and the plain largest number of a format lies every
    finite number of the format but the largest one. *)
Lemma range_of_bounded (s : bool) (m M : positive) (e E : Z) :
  e <= E -> Z.pos m <= Z.pos M ->
  SFleb (S754_finite true M E) (S754_finite s m e) &&
  SFltb (S754_finite s m e) (S754_finite false M E) =
  negb (negb (SFeqb (S754_finite s m e) (S754_finite s m e)) ||
        SFeqb (SFabs (S754_finite s m e)) (S754_infinity false)) &&
  negb (SFeqb (S754_finite s m e) (S754_finite false M E)).
Proof.
  intros He Hm.
  unfold SFleb, SFltb, SFeqb. cbn [SFabs SFcompare]. fold_pos_compare.
  rewrite Z.compare_refl, Pos.compare_refl.
  rewrite (Pos2Z.inj_compare M m), (Pos2Z.inj_compare m M).
  assert (He' : (E ?= e) = Eq \/ (E ?= e) = Gt).
  { destruct (Z.compare_spec E e); [left | lia | right]; reflexivity. }
  assert (Hm' : (Z.pos M ?= Z.pos m) = Eq \/ (Z.pos M ?= Z.pos m) = Gt).
  { destruct (Z.compare_spec (Z.pos M) (Z.pos m));
      [left | lia | right]; reflexivity. }
  rewrite (Z.compare_antisym E e), (Z.compare_antisym (Z.pos M) (Z.pos m)).
  destruct He' as [-> | ->], Hm' as [-> | ->]; destruct s; reflexivity.
Qed.

(** X20. The default limit [JointLimit()] is met by exactly the finite doubles
    other than [DBL_MAX]: it lets every ordinary reading pass and rejects
    NaN, both infinities and [DBL_MAX] itself. *)
Theorem default_limit_range (value : double) :
  in_range value (min JointLimit_default) (max JointLimit_default) =
    PrimFloat.is_finite value && negb (PrimFloat.eqb value numeric_max).
Proof.
  cbn [JointLimit_default min max].
  unfold in_range, PrimFloat.is_finite, PrimFloat.is_nan,
    PrimFloat.is_infinity.
  rewrite leb_spec, ltb_spec, !FloatAxioms.eqb_spec, abs_spec.
  replace (Prim2SF numeric_max)
    with (S754_finite false 9007199254740991 971)
    by (vm_compute; reflexivity).
  replace (Prim2SF numeric_lowest)
    with (S754_finite true 9007199254740991 971)
    by (vm_compute; reflexivity).
  replace (Prim2SF infinity) with (S754_infinity false)
    by (vm_compute; reflexivity).
  pose proof (Prim2SF_valid value) as Hv.
  destruct (Prim2SF value) as [s | s | | s m e].
  - destruct s; reflexivity.
  - destruct s; reflexivity.
  - reflexivity.
  - apply valid_finite_bounds in Hv as [He Hm].
    apply range_of_bounded; assumption.
Qed.

(** The readings the default limit rejects, and one it lets pass. *)
Example default_limit_edges :
  in_range quiet_NaN numeric_lowest numeric_max = false /\
  in_range PrimFloat.infinity numeric_lowest numeric_max = false /\
  in_range PrimFloat.neg_infinity numeric_lowest numeric_max = false /\
  in_range numeric_max numeric_lowest numeric_max = false /\
  in_range numeric_lowest numeric_lowest numeric_max = true.
Proof. repeat split; vm_compute; reflexivity. Qed.

(** ** The gear ratio over the life of a module *)

(** A double is not finite exactly when it is NaN or an infinity. *)
Lemma is_finite_false (x : double) :
  PrimFloat.is_finite x = false <->
  Prim2SF x = S754_nan \/ exists s, Prim2SF x = S754_infinity s.
Proof.
  unfold PrimFloat.is_finite, PrimFloat.is_nan, PrimFloat.is_infinity.
  rewrite !FloatAxioms.eqb_spec, abs_spec. unfold SFeqb.
  replace (Prim2SF infinity) with (S754_infinity false)
    by (vm_compute; reflexivity).
  destruct (Prim2SF x) as [s | s | | s mant e]; cbn [SFabs SFcompare].
  - split; [discriminate | intros [? | [? ?]]; discriminate].
  - split; [eauto | intros _; destruct s; reflexivity].
  - split; [eauto | reflexivity].
  - fold (Pos.compare mant mant).
    rewrite Z.compare_refl, Pos.compare_refl.
    split; [destruct s; discriminate | intros [? | [? ?]]; discriminate].
Qed.

(** Dividing by a zero of either sign never gives a finite number. *)
Lemma div_by_zero_not_finite (x g : double) :
  PrimFloat.eqb g PrimFloat.zero = true ->
  PrimFloat.is_finite (PrimFloat.div x g) = false.
Proof.
  rewrite FloatAxioms.eqb_spec. unfold SFeqb.
  change (Prim2SF PrimFloat.zero) with (S754_zero false).
  intros Hzero. apply is_finite_false. rewrite div_spec.
  destruct (Prim2SF g) as [sg | sg | | sg mg eg]; cbn [SFcompare] in Hzero;
    try discriminate; try (destruct sg; discriminate).
  destruct (Prim2SF x) as [sx | sx | | sx mx ex]; cbn; eauto.
Qed.

(** Subtracting from a number that is not finite gives one that is not. *)
Lemma sub_not_finite (x z : double) :
  PrimFloat.is_finite x = false ->
  PrimFloat.is_finite (PrimFloat.sub x z) = false.
Proof.
  rewrite !is_finite_false, sub_spec.
  intros [-> | [sx ->]].
  - left. reflexivity.
  - destruct (Prim2SF z) as [sz | sz | | sz mz ez]; cbn; eauto.
    destruct sx, sz; eauto.
Qed.

Lemma reachable_keeps_calibration (m0 m : EncoderJointModule) :
  reachable m0 m ->
  gear_ratio_ m = gear_ratio_ m0 /\ encoder_ m = encoder_ m0.
Proof.
  apply (reachable_ind_steps
           (fun a b => gear_ratio_ b = gear_ratio_ a /\
                       encoder_ b = encoder_ a)).
  - intros a. split; reflexivity.
  - intros a b c [Hg He] [Hg' He']. split; congruence.
  - intros a z. split; reflexivity.
  - intros a r. split; reflexivity.
  - intros a d. split; reflexivity.
  - intros a lims _. split; reflexivity.
Qed.

(** C9, as the code has it. The constructor checks nothing: after any
    sequence of calls the module's gear ratio is the one the constructor
    was given, zero included. The calibrated getters divide by it: on a
    channel with samples they return [polarity * raw / gear_ratio] for that
    very gear ratio (less [zero_angle] for the angle), and when the gear
    ratio is zero every calibrated getter returns a value that is not
    finite (an infinity or NaN), whatever the samples, the polarity and the
    zero angle are. A module of [create_encoder_module] has gear ratio 1.0,
    which is not zero. *)
Theorem gear_ratio_as_constructed (joint_id : JointNamesIndex)
    (encoder : EncoderInterface) (gear_ratio zero_angle : double)
    (reverse_polarity : bool) (m : EncoderJointModule) :
  reachable
    (EncoderJointModule_new joint_id encoder gear_ratio zero_angle
       reverse_polarity) m ->
  gear_ratio_ m = gear_ratio /\
  (forall k,
     TimeSeries.length (encoder k) <> 0 ->
     calibrated_measurement m k =
       let scaled :=
         PrimFloat.div
           (PrimFloat.mul (polarity_ m)
              (TimeSeries.newest_element (encoder k)))
           gear_ratio in
       match k with
       | position => PrimFloat.sub scaled (zero_angle_ m)
       | _ => scaled
       end) /\
  (PrimFloat.eqb gear_ratio PrimFloat.zero = true ->
   forall k, PrimFloat.is_finite (calibrated_measurement m k) = false) /\
  (forall m',
     reachable (create_encoder_module joint_id encoder) m' ->
     gear_ratio_ m' = 1%float /\
     PrimFloat.eqb (gear_ratio_ m') PrimFloat.zero = false).
Proof.
  intros Hreach.
  destruct (reachable_keeps_calibration _ _ Hreach) as [Hg He].
  cbn [EncoderJointModule_new set_zero_angle with_zero_angle gear_ratio_
       encoder_] in Hg, He.
  split; [exact Hg |]. split; [| split].
  - intros k Hlen. cbv zeta. rewrite <- He in Hlen |- *. rewrite <- Hg.
    destruct k; cbn [calibrated_measurement];
      unfold get_measured_angle, get_measured_velocity,
        get_measured_acceleration, get_measured_index_angle;
      rewrite (get_joint_measurement_nonempty _ _ Hlen); reflexivity.
  - intros Hzero k. rewrite <- Hg in Hzero.
    destruct k; cbn [calibrated_measurement];
      unfold get_measured_angle, get_measured_velocity,
        get_measured_acceleration, get_measured_index_angle;
      try apply sub_not_finite; apply div_by_zero_not_finite, Hzero.
  - intros m' Hreach'.
    destruct (reachable_keeps_calibration _ _ Hreach') as [Hg' _].
    rewrite Hg'. split; reflexivity.
Qed.

(** The module constructed with gear ratio 0, polarity then reversed: its
    gear ratio is still 0 and its position getter, on the raw sample 0.5,
    does not return a finite value. *)
Lemma gear_ratio_as_constructed_witness :
  gear_ratio_ (set_joint_polarity true zero_geared) = 0%float /\
  PrimFloat.is_finite
    (get_measured_angle (set_joint_polarity true zero_geared)) = false.
Proof.
  destruct (gear_ratio_as_constructed hip_joint one_position_sample 0 0 false
              (set_joint_polarity true zero_geared))
    as (Hgear & _ & Hdiv & _).
  - apply reach_set_joint_polarity, reach_start.
  - split; [exact Hgear |]. exact (Hdiv eq_refl position).
Defined.
